(** * PyCLI: the command registry and the dispatch loop

    A shallow embedding of [CLI.__init__], [CLI.command], [CLI.help] and
    [CLI.run] of PyCLI (one Python module), together with the properties of
    the registry, of the argument coercer and of the read-eval loop.

    Text is modelled as [string] (a sequence of 8-bit characters), so the
    case mapping and the white-space classes below are the ASCII ones, and
    strings are ordered character by character. *)

From Stdlib Require Import ZArith Ascii String List Bool Lia.
From Stdlib Require Import Sorting.Sorted Sorting.Permutation.
From stdpp Require Import base list strings pretty gmap.

Local Open Scope Z_scope.

(** ** The string methods the module uses *)

Module PyStr.

Definition is_upper (c : ascii) : bool :=
  let n := N_of_ascii c in (65 <=? n)%N && (n <=? 90)%N.

Definition lower_char (c : ascii) : ascii :=
  if is_upper c then ascii_of_N (N_of_ascii c + 32) else c.

(** [s.lower()] *)
Fixpoint lower (s : string) : string :=
  match s with
  | EmptyString => EmptyString
  | String c s' => String (lower_char c) (lower s')
  end.

Fixpoint has_upper (s : string) : bool :=
  match s with
  | EmptyString => false
  | String c s' => is_upper c || has_upper s'
  end.

Fixpoint has_char (x : ascii) (s : string) : bool :=
  match s with
  | EmptyString => false
  | String c s' => Ascii.eqb c x || has_char x s'
  end.

(** [s.replace(old, new)] for a non-empty [old]: occurrences are taken
    left to right and do not overlap.  [skip] counts the characters of
    the occurrence just replaced that are still to be passed over. *)
Fixpoint replace_go (old new : string) (skip : nat) (s : string) : string :=
  match s with
  | EmptyString => EmptyString
  | String c s' =>
      match skip with
      | S k => replace_go old new k s'
      | O =>
          if String.prefix old s
          then new +:+ replace_go old new (Nat.pred (String.length old)) s'
          else String c (replace_go old new O s')
      end
  end.

Definition replace (old new s : string) : string := replace_go old new O s.

(** [s.split(sep)] for a non-empty [sep]; [cur] is the piece being read.
    The result always has at least one piece. *)
Fixpoint split_go (sep : string) (skip : nat) (cur s : string) : list string :=
  match s with
  | EmptyString => [cur]
  | String c s' =>
      match skip with
      | S k => split_go sep k cur s'
      | O =>
          if String.prefix sep s
          then cur :: split_go sep (Nat.pred (String.length sep)) "" s'
          else split_go sep O (cur +:+ String c "") s'
      end
  end.

Definition split (sep s : string) : list string := split_go sep O "" s.

(** [sep.join(l)] *)
Fixpoint join (sep : string) (l : list string) : string :=
  match l with
  | [] => ""
  | [x] => x
  | x :: l' => x +:+ sep +:+ join sep l'
  end.

(** [s[:-1]] *)
Fixpoint drop_last (s : string) : string :=
  match s with
  | EmptyString => EmptyString
  | String c EmptyString => EmptyString
  | String c s' => String c (drop_last s')
  end.

(** The white space [int] skips at both ends of an ASCII string: the codes
    9 to 13 and the space (the codes 28 to 31, which [str.strip] removes,
    are not skipped). *)
Definition is_space (c : ascii) : bool :=
  let n := N_of_ascii c in
  ((9 <=? n)%N && (n <=? 13)%N) || (n =? 32)%N.

Fixpoint lstrip (s : string) : string :=
  match s with
  | EmptyString => EmptyString
  | String c s' => if is_space c then lstrip s' else s
  end.

Fixpoint rstrip (s : string) : string :=
  match s with
  | EmptyString => EmptyString
  | String c s' =>
      match rstrip s' with
      | EmptyString => if is_space c then EmptyString else String c EmptyString
      | r => String c r
      end
  end.

Definition strip (s : string) : string := rstrip (lstrip s).

Definition dquote : string := String (ascii_of_N 34) EmptyString.
Definition newline : string := String (ascii_of_N 10) EmptyString.

End PyStr.

(** ** The built-in conversions that have an exact model *)

Module PyBuiltins.

Definition digit_of (c : ascii) : option Z :=
  let n := N_of_ascii c in
  if (48 <=? n)%N && (n <=? 57)%N then Some (Z.of_N n - 48) else None.

(** The digits of a decimal literal; a single underscore may separate two
    digits.  [after_digit] tells whether the previous character was one. *)
Fixpoint digits (acc : Z) (after_digit : bool) (s : string) : option Z :=
  match s with
  | EmptyString => if after_digit then Some acc else None
  | String c s' =>
      match digit_of c with
      | Some d => digits (10 * acc + d) true s'
      | None =>
          if Ascii.eqb c "_" && after_digit then digits acc false s' else None
      end
  end.

(** [int(arg)] on a [str] of ASCII characters: surrounding white space is
    dropped, a sign may come first, the rest is a decimal literal.  [None]
    stands for the [ValueError] Python raises; the bound recent interpreters
    put on the number of digits is left out, and so are the decimal digits
    of other scripts, which [int] reads and 8-bit characters cannot hold. *)
Definition int (arg : string) : option Z :=
  match PyStr.strip arg with
  | String "-" s => Z.opp <$> digits 0 false s
  | String "+" s => digits 0 false s
  | s => digits 0 false s
  end.

(** [bool(arg)] on a [str]: true exactly for a non-empty string. *)
Definition bool (arg : string) : Datatypes.bool :=
  match arg with EmptyString => false | _ => true end.

(** [bytes(arg)] and [bytearray(arg)] on a [str]: with no encoding given,
    Python 3 raises [TypeError] ("string argument without an encoding")
    for every string, the empty one included. *)
Definition bytes (arg : string) : option (list ascii) := None.
Definition bytearray (arg : string) : option (list ascii) := None.

End PyBuiltins.

(** ** Values, exceptions and the registry *)

(** The exception classes the module can meet.  [KeyboardInterrupt] and
    [SystemExit] derive from [BaseException] only, and [SystemExit] stands
    for every such class but [KeyboardInterrupt]; every [Exc] is a subclass
    of [Exception] and carries the text [str(e)] gives. *)
Inductive ExcClass :=
  | AliasAlreadyUsing
  | ValueError
  | TypeError
  | IndexError
  | AttributeError
  | UnboundLocalError
  | EOFError
  | HostError (cls : string).

Inductive PyExn :=
  | KeyboardInterrupt
  | SystemExit
  | Exc (cls : ExcClass) (msg : string).

(** What the clause [except Exception] catches. *)
Definition is_Exception (e : PyExn) : bool :=
  match e with Exc _ _ => true | _ => false end.

(** What is left to the interpreter: [float(arg)] and [complex(arg)], with
    their value types ([None]: the reader raised), and the text of the
    [UnboundLocalError] for a local read before assignment, whose wording
    depends on the interpreter's version. *)
Class Interp := {
  pyfloat : Type;
  pycomplex : Type;
  float_of_str : string -> option pyfloat;
  complex_of_str : string -> option pycomplex;
  unbound_error_msg : string
}.

Section Shell.

Context `{Interp}.

Inductive PyVal :=
  | PyInt (n : Z)
  | PyFloat (x : pyfloat)
  | PyComplex (z : pycomplex)
  | PyBool (b : bool)
  | PyBytes (b : list ascii)
  | PyByteArray (b : list ascii)
  | PyStr (s : string).

(** How a call of a handler ends. *)
Inductive Outcome :=
  | Returns
  | Raises (e : PyExn)
  | KillsProcess.

(** The callable stored under ["function"]: one of the three closures
    [__init__] defines, or a callable of the host, which is opaque: [f]
    tells how its call ends on each list of positional arguments, the
    [TypeError] of a call with too few or too many of them included. *)
Inductive Handler :=
  | HelpClosure
  | ClearHostClosure
  | LeaveClosure
  | Host (f : list PyVal -> Outcome).

(** One entry of [self.__cmd]; the fields are the keys of the dict. *)
Record Command := mkCommand {
  name : string;
  doc : option string;
  function : Handler;
  args : list string;
  types : list string;
  alias : list string
}.

(** The attributes of a [CLI] object the loop reads. *)
Record CLI := mkCLI {
  cmd : list Command;
  prompt_text : string;
  not_exist : string;
  logs : bool;
  animation : bool;
  clear_cmd : string
}.

Definition set_cmd (self : CLI) (l : list Command) : CLI :=
  mkCLI l (prompt_text self) (not_exist self) (logs self) (animation self)
        (clear_cmd self).

(** What [command] reads of the decorated function: [__name__],
    [__doc__], the parameters of [inspect.signature] as pairs of the
    parameter's name and [str] of its annotation, and the callable. *)
Record Func := mkFunc {
  f_name : string;
  f_doc : option string;
  f_params : list (string * string);
  f_call : Handler
}.

(** *** [CLI.command] *)

Definition truthy (o : option string) : bool :=
  match o with Some (String _ _) => true | _ => false end.

Definition normalize (name : string) : string :=
  PyStr.lower (PyStr.replace " " "_" name).

Definition type_name (annotation : string) : string :=
  PyStr.replace "'>" "" (PyStr.replace "<class '" "" annotation).

Definition entry (name : string) (doc : option string) (func : Func)
    (alias : list string) : Command :=
  {| name := name;
     doc := doc;
     function := f_call func;
     args := map (fun p => "[" +:+ fst p +:+ "]") (f_params func);
     types := map (fun p => type_name (snd p)) (f_params func);
     alias := alias |}.

(** [for j in value["alias"]: if i == j: raise ...] *)
Fixpoint alias_used (i : string) (js : list string) : bool :=
  match js with
  | [] => false
  | j :: js' => if String.eqb i j then true else alias_used i js'
  end.

(** [for i in alias: for j in value["alias"]: ...]: the alias the error
    names, if the two nested loops raise. *)
Fixpoint alias_clash (alias js : list string) : option string :=
  match alias with
  | [] => None
  | i :: alias' => if alias_used i js then Some i else alias_clash alias' js
  end.

Definition alias_error (value : Command) (i : string) : PyExn :=
  Exc AliasAlreadyUsing
    ("[" +:+ name value +:+ "] Alias " +:+ PyStr.dquote +:+ i +:+ PyStr.dquote
     +:+ " is already used.").

(** The loop [for nmb, value in enumerate(self.__cmd)] of [wrapper].  The
    list is the one object the loop both reads and overwrites, so it is
    threaded through; [n] bounds the indices still to visit.  The result is
    the list as the loop leaves it and either the flag [exist] or the
    exception raised. *)
Fixpoint wrapper_loop (new : Command) (n nmb : nat) (exist : bool)
    (l : list Command) : list Command * (bool + PyExn) :=
  match n with
  | O => (l, inl exist)
  | S n' =>
      match l !! nmb with
      | None => (l, inl exist)
      | Some value =>
          match alias_clash (alias new) (alias value) with
          | Some i => (l, inr (alias_error value i))
          | None =>
              if String.eqb (name value) (name new)
              then wrapper_loop new n' (S nmb) true (<[nmb := new]> l)
              else wrapper_loop new n' (S nmb) exist l
          end
      end
  end.

(** [wrapper(name, doc, alias)] once [name] is normalized and the entry built. *)
Definition register (new : Command) (l : list Command)
    : list Command * option PyExn :=
  match wrapper_loop new (length l) O false l with
  | (l', inr e) => (l', Some e)
  | (l', inl true) => (l', None)
  | (l', inl false) => (l' ++ [new], None)
  end.

(** [self.command(name, doc, alias)(func)] *)
Definition command (self : CLI) (name doc : option string)
    (alias : list string) (func : Func) : CLI * option PyExn :=
  let name' := if truthy name then default "" name else f_name func in
  let doc' := if truthy doc then doc else f_doc func in
  let '(l, r) := register (entry (normalize name') doc' func alias) (cmd self) in
  (set_cmd self l, r).

(** *** [CLI.help] *)

(** What the module sends out, in order: the text given to [echo], the text
    of [print(e)], the call of a stored callable with its positional
    arguments, and the command line given to [os.system].  The sinks are
    taken not to fail; the animation of [echo] and [prompt] and the lines
    [write_logs] adds to the transcript are left out. *)
Inductive Event :=
  | Echo (text : string)
  | Printed (text : string)
  | Called (i : Command) (a : list PyVal)
  | SystemCmd (line : string).

Definition help_line (i : Command) : string :=
  "Alias    " +:+ PyStr.join ", " (alias i) +:+ " -> " +:+ name i +:+ " "
  +:+ PyStr.join " " (args i) +:+ default "" (doc i).

(** The loop [for i in self.__cmd: ... text += ... + "\n"]. *)
Definition help_text (l : list Command) : string :=
  fold_left (fun text i => text +:+ help_line i +:+ PyStr.newline) l "".

Definition help (self : CLI) : list Event :=
  [Echo (PyStr.drop_last (help_text (cmd self)))].

(** *** The coercion of the arguments in [CLI.run] *)

(** The chain [if i["types"][nmb] == "int": ... else: args.append(arg)]; it
    is driven by the whole declared type [ty].  [None]: the conversion
    raised. *)
Definition convert (ty arg : string) : option PyVal :=
  if String.eqb ty "int" then PyInt <$> PyBuiltins.int arg
  else if String.eqb ty "float" then PyFloat <$> float_of_str arg
  else if String.eqb ty "complex" then PyComplex <$> complex_of_str arg
  else if String.eqb ty "bool" then Some (PyBool (PyBuiltins.bool arg))
  else if String.eqb ty "bytes" then PyBytes <$> PyBuiltins.bytes arg
  else if String.eqb ty "bytearray" then PyByteArray <$> PyBuiltins.bytearray arg
  else Some (PyStr arg).

(** The loop [for type in i["types"][nmb].split(" | ")]: the loop variable
    is not read in the body.  [error] is the local of [run], [None] while it
    is unbound; a successful conversion appends, binds it to [False] and
    breaks, a failed one goes on to the next alternative. *)
Fixpoint for_types (alternatives : list string) (ty arg : string)
    (a : list PyVal) (error : option bool) : list PyVal * option bool :=
  match alternatives with
  | [] => (a, error)
  | _ :: alternatives' =>
      match convert ty arg with
      | Some v => (a ++ [v], Some false)
      | None => for_types alternatives' ty arg a error
      end
  end.

(** The loop [for nmb, arg in enumerate(...)] with the test [if error:]
    after each position.  Reading the unbound [error] raises; were it true,
    the message of the [ValueError] would index the dict with the list
    [args], which raises [TypeError]. *)
Fixpoint for_args (i : Command) (nmb : nat) (tokens : list string)
    (a : list PyVal) (error : option bool)
    : option bool * (list PyVal + PyExn) :=
  match tokens with
  | [] => (error, inl a)
  | arg :: tokens' =>
      match types i !! nmb with
      | None => (error, inr (Exc IndexError "list index out of range"))
      | Some ty =>
          let '(a', error') := for_types (PyStr.split " | " ty) ty arg a error in
          match error' with
          | None => (error', inr (Exc UnboundLocalError unbound_error_msg))
          | Some true => (error', inr (Exc TypeError "unhashable type: 'list'"))
          | Some false => for_args i (S nmb) tokens' a' error'
          end
      end
  end.

(** *** The dispatch loop of [CLI.run] *)

Definition takes_no_argument (fname : string) (a : list PyVal) : PyExn :=
  Exc TypeError
    (fname +:+ "() takes 0 positional arguments but " +:+ pretty (length a)
     +:+ (if Nat.eqb (length a) 1 then " was given" else " were given")).

(** The call of the stored callable on the arguments [a]: the events it
    sends and how it ends.  A closure of the constructor has no parameter. *)
Definition invoke (self : CLI) (h : Handler) (a : list PyVal)
    : list Event * Outcome :=
  match h, a with
  | Host f, _ => ([], f a)
  | HelpClosure, [] => (help self, Returns)
  | ClearHostClosure, [] => ([SystemCmd (clear_cmd self)], Returns)
  | LeaveClosure, [] => ([], KillsProcess)
  | HelpClosure, _ => ([], Raises (takes_no_argument "help" a))
  | ClearHostClosure, _ => ([], Raises (takes_no_argument "clear_host" a))
  | LeaveClosure, _ => ([], Raises (takes_no_argument "leave" a))
  end.

(** [x in l] on a list of strings. *)
Definition contains (l : list string) (x : string) : bool :=
  existsb (String.eqb x) l.

Definition selects (i : Command) (first : string) : bool :=
  String.eqb (name i) first || contains (alias i) first.

(** [for i in self.__cmd] followed by [if not exist: echo(self.not_exist)]:
    the first entry the token selects is coerced for, called, and ends the
    loop; the end of the list is reached only with [exist] still false. *)
Fixpoint for_commands (self : CLI) (first : string) (rest : list string)
    (error : option bool) (l : list Command)
    : option bool * list Event * Outcome :=
  match l with
  | [] => (error, [Echo (not_exist self)], Returns)
  | i :: l' =>
      if selects i first then
        match for_args i O (take (length (args i)) rest) [] error with
        | (error', inr e) => (error', [], Raises e)
        | (error', inl a) =>
            let '(evs, o) := invoke self (function i) a in
            (error', Called i a :: evs, o)
        end
      else for_commands self first rest error l'
  end.

(** [sorted(self.__cmd, key=lambda x: x["name"])]: a stable sort on the
    names, compared as strings. *)
Fixpoint insert_by_name (i : Command) (l : list Command) : list Command :=
  match l with
  | [] => [i]
  | j :: l' =>
      if String.leb (name i) (name j) then i :: j :: l'
      else j :: insert_by_name i l'
  end.

Definition sorted_by_name (l : list Command) : list Command :=
  foldr insert_by_name [] l.

(** What [prompt] gives the loop: a line, or the exception [input] raised. *)
Inductive Read :=
  | Line (s : string)
  | ReadRaises (e : PyExn).

(** How one pass of [while True] ends. *)
Inductive Control :=
  | Continue
  | Propagates (e : PyExn)
  | Killed.

Record Step := mkStep {
  step_cli : CLI;
  step_error : option bool;
  step_events : list Event;
  step_control : Control
}.

(** The two [except] clauses around the body of the loop. *)
Definition handle (o : Outcome) : list Event * Control :=
  match o with
  | Returns => ([], Continue)
  | Raises KeyboardInterrupt => ([], Continue)
  | Raises (Exc _ msg) => ([Printed msg], Continue)
  | Raises SystemExit => ([], Propagates SystemExit)
  | KillsProcess => ([], Killed)
  end.

(** The ways a call ends that the loop does not outlive, none of them an
    error: the kill of the process, and an exception that derives neither
    from [Exception] nor from [KeyboardInterrupt]. *)
Definition stops (o : Outcome) : bool :=
  match o with
  | KillsProcess | Raises SystemExit => true
  | _ => false
  end.

(** One pass of the loop of [run]. *)
Definition iteration (self : CLI) (error : option bool) (r : Read) : Step :=
  let self' := set_cmd self (sorted_by_name (cmd self)) in
  match r with
  | ReadRaises e =>
      let '(evs, c) := handle (Raises e) in mkStep self' error evs c
  | Line s =>
      let tokens := PyStr.split " " (PyStr.lower s) in
      let '(error', evs, o) :=
        for_commands self' (hd "" tokens) (tl tokens) error (cmd self') in
      let '(evs', c) := handle o in
      mkStep self' error' (evs ++ evs') c
  end.

(** [run] on the reads it is given, as long as the loop goes on. *)
Fixpoint run_from (self : CLI) (error : option bool) (reads : list Read) : Step :=
  match reads with
  | [] => mkStep self error [] Continue
  | r :: reads' =>
      let s := iteration self error r in
      match step_control s with
      | Continue =>
          let s' := run_from (step_cli s) (step_error s) reads' in
          mkStep (step_cli s') (step_error s') (step_events s ++ step_events s')
                 (step_control s')
      | _ => s
      end
  end.

Definition run (self : CLI) (reads : list Read) : Step := run_from self None reads.

(** *** [CLI.__init__] *)

Inductive Platform := Windows | Linux | Darwin | OtherSystem.

Definition help_func : Func := mkFunc "help" None [] HelpClosure.
Definition clear_host_func : Func := mkFunc "clear_host" None [] ClearHostClosure.
Definition leave_func : Func := mkFunc "leave" None [] LeaveClosure.

Definition and_then (r : CLI * option PyExn) (k : CLI -> CLI * option PyExn)
    : CLI * option PyExn :=
  match r with
  | (self, None) => k self
  | (self, Some e) => (self, Some e)
  end.

(** The constructor; the exception, if any, leaves it. [del self.help] finds
    no instance attribute to delete, and on a system that is none of the
    three the attribute [__clear_cmd] is never set. *)
Definition init (prompt not_exist : string) (logs animation help_cmd : bool)
    (system : Platform) : CLI * option PyExn :=
  let self := mkCLI [] prompt not_exist logs animation
                (match system with Windows => "cls" | _ => "reset" end) in
  and_then
    (if help_cmd
     then command self None (Some "Displays info about terminal commands.")
            ["?"] help_func
     else (self, Some (Exc AttributeError "help")))
    (fun self =>
       match system with
       | OtherSystem =>
           (self, Some (Exc AttributeError
              "'CLI' object has no attribute '_CLI__clear_cmd'"))
       | _ =>
           and_then
             (command self (Some "clear-host")
                (Some "Reset the display of the terminal.") [clear_cmd self]
                clear_host_func)
             (fun self =>
                command self None (Some "Close the terminal.") ["exit"] leave_func)
       end).

End Shell.

(** ** A shell to run the examples on *)

Section Demo.
Context `{Interp}.

Definition not_exist_default : string :=
  "This command does not exist." +:+ PyStr.newline
  +:+ "Do help to get the list of existing commands.".

(** [CLI()] on Linux, with the defaults of the constructor. *)
Definition default_cli : CLI :=
  fst (init "Python@CLI\>" not_exist_default true true true Linux).

(** A callable that returns on any arguments, such as a function whose
    parameters all have defaults. *)
Definition returning : Handler := Host (fun _ => Returns).

(** [def add(x: int = 0)], [def scale(k: int | float = 1)],
    [def send(data: bytes = None)], [def flag(on: bool = True)], and two
    functions without parameters. *)
Definition add_func : Func :=
  mkFunc "add" None [("x", "<class 'int'>")] returning.
Definition scale_func : Func :=
  mkFunc "scale" None [("k", "int | float")] returning.
Definition send_func : Func :=
  mkFunc "send" None [("data", "<class 'bytes'>")] returning.
Definition flag_func : Func :=
  mkFunc "flag" None [("on", "<class 'bool'>")] returning.
Definition first_func : Func := mkFunc "first" None [] returning.
Definition second_func : Func := mkFunc "second" None [] returning.

(** The shell after the decorator was applied to each function in turn;
    a registration that raises leaves the shell it had reached. *)
Fixpoint commands (self : CLI)
    (l : list (option string * list string * Func)) : CLI :=
  match l with
  | [] => self
  | (nm, al, f) :: l' => commands (fst (command self nm None al f)) l'
  end.

Definition typed_cli : CLI :=
  commands default_cli
    [(None, [], scale_func); (None, [], add_func); (None, [], send_func);
     (None, [], flag_func)].

(** [def total(x: int)], whose call without an argument raises, added to
    the default shell. *)
Definition total_func : Func :=
  mkFunc "total" None [("x", "<class 'int'>")]
    (Host (fun a =>
       match a with
       | [_] => Returns
       | [] => Raises (Exc TypeError
                 "total() missing 1 required positional argument: 'x'")
       | _ => Raises (Exc TypeError
                 ("total() takes 1 positional argument but "
                  +:+ pretty (length a) +:+ " were given"))
       end)).

Definition strict_cli : CLI := commands default_cli [(None, [], total_func)].

(** [def fail(): raise ValueError("no")], added to the default shell. *)
Definition fail_func : Func :=
  mkFunc "fail" None [] (Host (fun _ => Raises (Exc ValueError "no"))).

Definition failing_cli : CLI := commands default_cli [(None, [], fail_func)].

Definition two_cli : CLI :=
  commands default_cli
    [(None, ["f"], first_func); (None, ["s"], second_func)].

(** [def say(word, to: str = "")], with the alias [s], added to the
    default shell. *)
Definition say_func : Func :=
  mkFunc "say" None [("word", "<class 'inspect._empty'>"); ("to", "<class 'str'>")]
    returning.

Definition untyped_cli : CLI := commands default_cli [(None, ["s"], say_func)].







End Demo.

(** An interpreter whose [float] and [complex] reject every token, with the
    wording of the [UnboundLocalError] of CPython up to 3.10; the closed
    examples run on it and declare neither kind. *)
Definition plain_interp : Interp :=
  {| pyfloat := Empty_set;
     pycomplex := Empty_set;
     float_of_str := fun _ => None;
     complex_of_str := fun _ => None;
     unbound_error_msg := "local variable 'error' referenced before assignment" |}.

(** ** The output primitives: [echo], [prompt] and [write_logs] *)

(** What the three functions do, in order: a call of [print] with its text
    and its [end], a call of [time.sleep] (the delay, a float, is left
    out and taken not to be negative), a call of [input] with the prompt it
    shows, and a call of [write_logs] with its values, already turned into
    text by [str], under the default separator and terminator. *)
Inductive IO :=
  | TermPrint (text terminator : string)
  | Sleep
  | Input (shown : string)
  | WriteLogs (values : list string).

Definition carriage_return : string := String (ascii_of_N 13) EmptyString.

(** The loop [for i in line: text += i; print(text, end="\r"); time.sleep(...)],
    entered with [text] as it stands. *)
Fixpoint animate (text line : string) : list IO :=
  match line with
  | EmptyString => []
  | String i line' =>
      let text' := text +:+ String i "" in
      TermPrint text' carriage_return :: Sleep :: animate text' line'
  end.

(** [echo] on its values, [sep], [end], [animation] and [logs]; [values] are the
    texts [str] gives for the values. *)
Definition echo (values : list string) (sep terminator : string)
    (animation logs : bool) : list IO :=
  let output := PyStr.join sep values in
  flat_map
    (fun line =>
       (if animation then animate "" line else []) ++ [TermPrint line terminator])
    (PyStr.split PyStr.newline output)
  ++ (if logs then [WriteLogs [output]] else []).

(** [prompt(__prompt, animation, cooldown, logs)] on what [input] gives:
    the actions, and the line returned or the exception that leaves. *)
Definition prompt (shown : string) (animation logs : bool) (r : Read)
    : list IO * (string + PyExn) :=
  let frames :=
    flat_map (fun line => if animation then animate "" line else [])
             (PyStr.split PyStr.newline shown) in
  match r with
  | Line returned =>
      (frames ++ [Input shown] ++ (if logs then [WriteLogs [returned]] else []),
       inl returned)
  | ReadRaises e => (frames ++ [Input shown], inr e)
  end.

(** The readings of the clock in [write_logs], one for each call of
    [datetime.today()]; [date] is the text of [datetime.today().date()]. *)
Record Clock := mkClock {
  year : Z;
  month : Z;
  day : Z;
  hour : Z;
  minute : Z;
  second : Z;
  date : string
}.

(** The part of the file system [write_logs] touches: whether the directory
    [latest] exists, and the content of each file by its path. *)
Record Disk := mkDisk {
  latest : bool;
  files : gmap string string
}.

Definition months : list string :=
  ["Jan"; "Feb"; "Mar"; "Apr"; "May"; "Jun"; "Jul"; "Aug"; "Sep"; "Oct"; "Nov"; "Dec"].

(** [l[k]] on a list: a negative index counts from the end. *)
Definition index (l : list string) (k : Z) : option string :=
  if k <? 0 then
    if k + Z.of_nat (length l) <? 0 then None
    else l !! Z.to_nat (k + Z.of_nat (length l))
  else l !! Z.to_nat k.

Definition time_now (now : Clock) (mon : string) : string :=
  pretty (year now) +:+ "/" +:+ mon +:+ "/" +:+ pretty (day now) +:+ " "
  +:+ pretty (hour now) +:+ ":" +:+ pretty (minute now) +:+ ":"
  +:+ pretty (second now).

Definition log_path (now : Clock) : string := "latest/" +:+ date now +:+ ".log".

Definition log_entry (stamp text : string) : string := "[" +:+ stamp +:+ "] " +:+ text.

(** [write_logs] on its values, [sep] and [end]: the directory is made when it is
    missing, then the entry is appended to the file of the day, which
    opening in mode [a] creates when it is missing.  Errors of the operating
    system are left out. *)
Definition write_logs (values : list string) (sep terminator : string)
    (now : Clock) (d : Disk) : Disk * option PyExn :=
  let text := PyStr.join sep values +:+ terminator in
  let d := mkDisk true (files d) in
  match index months (month now - 1) with
  | None => (d, Some (Exc IndexError "list index out of range"))
  | Some mon =>
      let path := log_path now in
      (mkDisk true
         (<[path := default "" (files d !! path) +:+ log_entry (time_now now mon) text]>
            (files d)),
       None)
  end.

(** A sequence of calls of [write_logs] under the default separator and
    terminator, each with its values and its readings of the clock; the
    first exception ends it. *)
Fixpoint write_all (calls : list (list string * Clock)) (d : Disk)
    : Disk * option PyExn :=
  match calls with
  | [] => (d, None)
  | (values, now) :: calls' =>
      match write_logs values " " PyStr.newline now d with
      | (d', None) => write_all calls' d'
      | (d', Some e) => (d', Some e)
      end
  end.

(** Two readings of the clock on the first of May 2023. *)
Definition morning : Clock := mkClock 2023 5 1 9 5 3 "2023-05-01".
Definition evening : Clock := mkClock 2023 5 1 21 40 0 "2023-05-01".

(** ** Predicates on registries and on what was written *)

Section Predicates.
Context `{Interp}.

(** The entry [command] builds from its arguments and the decorated
    function. *)
Definition decorated (nm dc : option string) (al : list string) (func : Func)
    : Command :=
  entry (normalize (if truthy nm then default "" nm else f_name func))
        (if truthy dc then dc else f_doc func) func al.

(** A name as [command] stores it: no upper-case letter and no space. *)
Definition normalized (s : string) : Prop :=
  PyStr.has_upper s = false /\ PyStr.has_char " " s = false.

(** No alias is an alias of two entries of the registry. *)
Definition aliases_apart (l : list Command) : Prop :=
  forall k1 k2 v1 v2 i,
    l !! k1 = Some v1 -> l !! k2 = Some v2 ->
    i ∈ alias v1 -> i ∈ alias v2 -> k1 = k2.

(** The names are pairwise distinct and no alias is shared. *)
Definition well_formed (l : list Command) : Prop :=
  NoDup (map name l) /\ aliases_apart l.

(** The shells the constructor, the decorator and the passes of the loop
    can produce. *)
Inductive reachable : CLI -> Prop :=
  | reach_init p ne lg an hc sys :
      snd (init p ne lg an hc sys) = None ->
      reachable (fst (init p ne lg an hc sys))
  | reach_command self nm dc al func :
      reachable self -> reachable (fst (command self nm dc al func))
  | reach_iteration self error r :
      reachable self -> reachable (step_cli (iteration self error r)).

End Predicates.

(** Everything the calls of [print] wrote, one after the other. *)
Fixpoint printed (acts : list IO) : string :=
  match acts with
  | [] => ""
  | TermPrint text terminator :: acts' => text +:+ terminator +:+ printed acts'
  | _ :: acts' => printed acts'
  end.

(** The number of calls of [time.sleep]. *)
Fixpoint sleeps (acts : list IO) : nat :=
  match acts with
  | [] => 0
  | Sleep :: acts' => S (sleeps acts')
  | _ :: acts' => sleeps acts'
  end.

(** The entry a call of [write_logs] under the defaults appends. *)
Definition entry_of (call : list string * Clock) : string :=
  log_entry
    (time_now (snd call) (default "" (index months (month (snd call) - 1))))
    (PyStr.join " " (fst call) +:+ PyStr.newline).

(** ** Examples *)

Example split_words : PyStr.split " " "add 1  x" = ["add"; "1"; ""; "x"].
Proof. reflexivity. Qed.
Example split_union : PyStr.split " | " "int | float" = ["int"; "float"].
Proof. reflexivity. Qed.
Example split_empty : PyStr.split " " "" = [""].
Proof. reflexivity. Qed.
Example replace_class :
  PyStr.replace "'>" "" (PyStr.replace "<class '" "" "<class 'int'>") = "int".
Proof. reflexivity. Qed.
Example replace_spaces : PyStr.lower (PyStr.replace " " "_" "Hello World") = "hello_world".
Proof. reflexivity. Qed.
Example int_3 : PyBuiltins.int "3" = Some 3.
Proof. reflexivity. Qed.
Example int_neg : PyBuiltins.int " -1_000" = Some (-1000).
Proof. reflexivity. Qed.
Example int_abc : PyBuiltins.int "abc" = None.
Proof. reflexivity. Qed.
Example int_bad_underscore : PyBuiltins.int "1__0" = None /\ PyBuiltins.int "1_" = None.
Proof. split; reflexivity. Qed.
Example int_unit_separator :
  PyBuiltins.int (String (ascii_of_N 31) "5") = None
  /\ PyBuiltins.int (String (ascii_of_N 9) "5") = Some 5.
Proof. split; reflexivity. Qed.

Section Examples.
Context `{Interp}.

Example default_cli_names :
  map name (cmd default_cli) = ["help"; "clear-host"; "leave"].
Proof. reflexivity. Qed.

Example typed_cli_types :
  map types (cmd typed_cli) = [[]; []; []; ["int | float"]; ["int"]; ["bytes"]; ["bool"]].
Proof. reflexivity. Qed.

Example run_sorts :
  map name (cmd (step_cli (run typed_cli [Line "nothing"])))
  = ["add"; "clear-host"; "flag"; "help"; "leave"; "scale"; "send"].
Proof. reflexivity. Qed.

Example run_add :
  map (fun e => match e with Called i a => Some (name i, a) | _ => None end)
      (step_events (run typed_cli [Line "ADD 12 13"]))
  = [Some ("add", [PyInt 12])].
Proof. reflexivity. Qed.

Example run_help :
  step_events (run typed_cli [Line "help"])
  = [Called (entry "help" (Some "Displays info about terminal commands.")
               help_func ["?"]) [];
     Echo (PyStr.join PyStr.newline
             ["Alias     -> add [x]";
              "Alias    reset -> clear-host Reset the display of the terminal.";
              "Alias     -> flag [on]";
              "Alias    ? -> help Displays info about terminal commands.";
              "Alias    exit -> leave Close the terminal.";
              "Alias     -> scale [k]";
              "Alias     -> send [data]"])].
Proof. reflexivity. Qed.

Example run_leave :
  step_control (run typed_cli [Line "exit"; Line "help"]) = Killed
  /\ step_events (run typed_cli [Line "exit"; Line "help"])
     = [Called (entry "leave" (Some "Close the terminal.") leave_func ["exit"]) []].
Proof. split; reflexivity. Qed.

End Examples.

(** ** The registry: [CLI.command] *)

Section Registry.
Context `{Interp}.
Implicit Types (new value : Command) (l pre post : list Command).

(** What the pass over one entry leaves at its index when nothing is raised. *)
Local Abbreviation same_name new := (fun value => String.eqb (name value) (name new)).
Local Abbreviation overwrite new :=
  (fun value => if String.eqb (name value) (name new) then new else value).

Lemma alias_used_elem i js : alias_used i js = true <-> i ∈ js.
Proof.
  induction js as [|j js IH]; simpl.
  - split; [discriminate | intros Hin; inversion Hin].
  - rewrite elem_of_cons. destruct (String.eqb_spec i j) as [->|Hne].
    + split; auto.
    + rewrite IH. split; [auto | intros [?|?]; [contradiction | assumption]].
Qed.

Lemma alias_clash_None alias js :
  alias_clash alias js = None <-> (forall i, i ∈ alias -> i ∉ js).
Proof.
  induction alias as [|i alias IH]; simpl.
  - split; [intros _ i Hin; inversion Hin | reflexivity].
  - destruct (alias_used i js) eqn:Hu.
    + split; [discriminate|]. intros Hd. exfalso.
      apply (Hd i); [left | by apply alias_used_elem].
    + rewrite IH. split.
      * intros Hd i' [->|Hin]%elem_of_cons; [|by apply Hd].
        intros Hin%alias_used_elem. congruence.
      * intros Hd i' Hin. apply Hd. by right.
Qed.

Lemma alias_clash_Some alias js i :
  alias_clash alias js = Some i -> i ∈ alias /\ i ∈ js.
Proof.
  induction alias as [|i' alias IH]; simpl; [discriminate|].
  destruct (alias_used i' js) eqn:Hu.
  - intros [= <-]. split; [left | by apply alias_used_elem].
  - intros [? ?]%IH. split; [by right | assumption].
Qed.

Lemma lookup_map {A B} (f : A -> B) (l : list A) (k : nat) :
  map f l !! k = f <$> l !! k.
Proof. revert k. induction l as [|x l IH]; intros [|k]; simpl; auto. Qed.

(** The loop over entries none of which shares an alias with [new]. *)
Lemma wrapper_loop_free new post : forall pre exist,
  Forall (fun value => alias_clash (alias new) (alias value) = None) post ->
  wrapper_loop new (length post) (length pre) exist (pre ++ post)
  = (pre ++ map (overwrite new) post, inl (exist || existsb (same_name new) post)).
Proof.
  induction post as [|value post IH]; intros pre exist Hfree; simpl.
  - by rewrite orb_false_r.
  - inversion_clear Hfree as [|? ? Hv Hpost].
    rewrite list_lookup_middle by reflexivity. rewrite Hv.
    assert (Hnext : forall x, pre ++ x :: post = (pre ++ [x]) ++ post)
      by (intros; by rewrite <- app_assoc).
    assert (Hlen : forall x, S (length pre) = length (pre ++ [x]))
      by (intros; rewrite length_app; simpl; lia).
    destruct (String.eqb (name value) (name new)) eqn:Hname.
    + rewrite insert_app_r_alt by lia. rewrite Nat.sub_diag. simpl.
      rewrite (Hnext new), (Hlen new), IH by assumption.
      by rewrite <- app_assoc, orb_true_r.
    + rewrite (Hnext value), (Hlen value), IH by assumption.
      by rewrite <- app_assoc.
Qed.

(** The loop up to the first entry that shares an alias with [new]: the
    entries before it were passed over as usual, the rest is not visited. *)
Lemma wrapper_loop_clash new value i post post' : forall pre exist,
  Forall (fun value => alias_clash (alias new) (alias value) = None) post ->
  alias_clash (alias new) (alias value) = Some i ->
  wrapper_loop new (length (post ++ value :: post')) (length pre) exist
    (pre ++ post ++ value :: post')
  = (pre ++ map (overwrite new) post ++ value :: post', inr (alias_error value i)).
Proof.
  induction post as [|v post IH]; intros pre exist Hfree Hclash; simpl.
  - rewrite list_lookup_middle by reflexivity. by rewrite Hclash.
  - inversion_clear Hfree as [|? ? Hv Hpost].
    rewrite list_lookup_middle by reflexivity. rewrite Hv.
    assert (Hnext : forall x l, pre ++ x :: l = (pre ++ [x]) ++ l)
      by (intros; by rewrite <- app_assoc).
    assert (Hlen : forall x, S (length pre) = length (pre ++ [x]))
      by (intros; rewrite length_app; simpl; lia).
    destruct (String.eqb (name v) (name new)) eqn:Hname.
    + rewrite insert_app_r_alt by lia. rewrite Nat.sub_diag. simpl.
      rewrite (Hnext new), (Hlen new), IH by assumption.
      by rewrite <- app_assoc.
    + rewrite (Hnext v), (Hlen v), IH by assumption.
      by rewrite <- app_assoc.
Qed.

(** A list splits at its first entry that shares an alias with [new]. *)
Lemma first_clash new l :
  Forall (fun value => alias_clash (alias new) (alias value) = None) l
  \/ exists post value i post',
       l = post ++ value :: post'
       /\ Forall (fun value => alias_clash (alias new) (alias value) = None) post
       /\ alias_clash (alias new) (alias value) = Some i.
Proof.
  induction l as [|v l IH]; [left; constructor|].
  destruct (alias_clash (alias new) (alias v)) as [j|] eqn:Hv.
  - right. exists [], v, j, l. repeat split; [constructor | assumption].
  - destruct IH as [IH|(post & value & i & post' & -> & Hfree & Hclash)].
    + left. by constructor.
    + right. exists (v :: post), value, i, post'.
      repeat split; [by constructor | assumption].
Qed.

(** Whenever an alias of [new] is an alias of a registered entry, the
    registration raises [AliasAlreadyUsing]. *)
Lemma register_clash_raises new l value i :
  value ∈ l -> i ∈ alias new -> i ∈ alias value ->
  exists v j,
    snd (register new l) = Some (alias_error v j)
    /\ v ∈ l /\ j ∈ alias new /\ j ∈ alias v.
Proof.
  intros Hin Hi Hj. unfold register.
  destruct (first_clash new l) as [Hfree|(post & v & j & post' & -> & Hfree & Hclash)].
  - exfalso. rewrite Forall_forall in Hfree.
    specialize (Hfree value Hin). rewrite alias_clash_None in Hfree.
    by apply (Hfree i).
  - pose proof (wrapper_loop_clash new v j post post' [] false Hfree Hclash) as Hw.
    cbn [app length] in Hw. rewrite Hw. simpl.
    exists v, j. destruct (alias_clash_Some _ _ _ Hclash).
    repeat split; try assumption. apply elem_of_app. right. left.
Qed.

(** If, besides, no entry before the clashing one has the name of [new],
    the registry is left as it was. *)
Lemma register_clash_unchanged new post value i post' :
  Forall (fun v => alias_clash (alias new) (alias v) = None /\ name v <> name new) post ->
  alias_clash (alias new) (alias value) = Some i ->
  register new (post ++ value :: post')
  = (post ++ value :: post', Some (alias_error value i)).
Proof.
  intros Hpost Hclash. unfold register.
  assert (Hfree : Forall (fun v => alias_clash (alias new) (alias v) = None) post)
    by (eapply Forall_impl; [exact Hpost | by intros ? [? _]]).
  pose proof (wrapper_loop_clash new value i post post' [] false Hfree Hclash) as Hw.
  cbn [app length] in Hw. rewrite Hw. simpl. clear Hw Hfree.
  assert (Hsame : map (overwrite new) post = post); [|by rewrite Hsame].
  induction Hpost as [|v post [_ Hv%String.eqb_neq] _ IH]; [reflexivity|].
  simpl. by rewrite Hv, IH.
Qed.

(** C1. The claim: a registration whose aliases meet those of a registered
    command fails with the alias error and leaves the registry exactly as it
    was, even when the new name is that of a registered command.  On the
    code the error is raised (see [register_clash_raises]), but the loop
    overwrites a same-name entry as soon as it passes it: with [first]
    (alias [f]) and [second] (alias [s]) registered after the commands of the
    constructor, registering [first] again with alias [s] overwrites the
    entry of [first] and only then raises on [second]. *)
Theorem command_clash_after_same_name_overwrites :
  cmd two_cli
  = cmd default_cli
    ++ [entry "first" None first_func ["f"]; entry "second" None second_func ["s"]]
  /\ command two_cli None (Some "again") ["s"] first_func
     = (set_cmd two_cli
          (cmd default_cli
           ++ [entry "first" (Some "again") first_func ["s"];
               entry "second" None second_func ["s"]]),
        Some (alias_error (entry "second" None second_func ["s"]) "s")).
Proof. split; reflexivity. Qed.

(** C5. A registration whose aliases are disjoint from those of every
    registered command raises nothing; every entry that has the normalized
    name of the new command is overwritten by the new entry at its own
    index and every other entry stays where it is, so that the size does not
    change when the name is registered; when it is not, the new entry is
    appended, and the size grows by one. *)
Theorem command_replaces_or_appends (self : CLI) (nm dc : option string)
    (al : list string) (func : Func) :
  let new := entry (normalize (if truthy nm then default "" nm else f_name func))
                   (if truthy dc then dc else f_doc func) func al in
  (forall value i, value ∈ cmd self -> i ∈ al -> i ∉ alias value) ->
  let self' := fst (command self nm dc al func) in
  snd (command self nm dc al func) = None
  /\ (forall k value, cmd self !! k = Some value ->
        cmd self' !! k = Some (if String.eqb (name value) (name new) then new else value))
  /\ ((exists value, value ∈ cmd self /\ name value = name new) ->
        length (cmd self') = length (cmd self))
  /\ ((forall value, value ∈ cmd self -> name value <> name new) ->
        cmd self' = cmd self ++ [new] /\ length (cmd self') = S (length (cmd self))).
Proof.
  intros new Hdisjoint self'. subst self'. unfold command. fold new.
  assert (Hfree : Forall (fun value => alias_clash (alias new) (alias value) = None)
                         (cmd self)).
  { apply Forall_forall. intros value Hin. apply alias_clash_None.
    intros i Hi. by apply Hdisjoint. }
  pose proof (wrapper_loop_free new (cmd self) [] false Hfree) as Hw.
  cbn [app length orb] in Hw. unfold register. rewrite Hw. clear Hw.
  destruct (existsb (same_name new) (cmd self)) eqn:Hex; cbn [fst snd set_cmd cmd].
  - split; [reflexivity|]. split; [|split].
    + intros k value Hk. by rewrite lookup_map, Hk.
    + intros _. apply length_map.
    + intros Hno. exfalso. apply existsb_exists in Hex as (value & Hin & Heq).
      apply String.eqb_eq in Heq. apply (Hno value); [by apply list_elem_of_In | assumption].
  - assert (Hsame : map (overwrite new) (cmd self) = cmd self).
    { clear Hfree Hdisjoint. revert Hex. generalize (cmd self) as l.
      induction l as [|v l IH]; [reflexivity|].
      cbn [existsb map]. intros [Hv Hl]%orb_false_elim.
      rewrite Hv. f_equal. exact (IH Hl). }
    rewrite Hsame. split; [reflexivity|]. split; [|split].
    + intros k value Hk. rewrite lookup_app_l by (by eapply lookup_lt_Some).
      rewrite Hk. f_equal.
      destruct (String.eqb (name value) (name new)) eqn:Hv; [|reflexivity].
      exfalso. apply list_elem_of_lookup_2, list_elem_of_In in Hk.
      assert (existsb (same_name new) (cmd self) = true)
        by (apply existsb_exists; eauto). congruence.
    + intros (value & Hin & Heq). exfalso.
      assert (existsb (same_name new) (cmd self) = true).
      { apply existsb_exists. exists value.
        split; [by apply list_elem_of_In | by apply String.eqb_eq]. }
      congruence.
    + intros _. split; [reflexivity|]. rewrite length_app. simpl. lia.
Qed.

End Registry.

(** ** Facts on the string methods *)

Module PyStrFacts.
Import PyStr.

Lemma lower_char_not_upper c : is_upper (lower_char c) = false.
Proof. destruct c as [[] [] [] [] [] [] [] []]; reflexivity. Qed.

Lemma lower_char_fixed c : is_upper c = false -> lower_char c = c.
Proof. unfold lower_char. by intros ->. Qed.

Lemma lower_char_space c : Ascii.eqb (lower_char c) " " = Ascii.eqb c " ".
Proof. destruct c as [[] [] [] [] [] [] [] []]; reflexivity. Qed.

Lemma has_upper_lower s : has_upper (lower s) = false.
Proof.
  induction s as [|c s IH]; simpl; [reflexivity|].
  by rewrite lower_char_not_upper, IH.
Qed.

Lemma lower_fixed s : has_upper s = false -> lower s = s.
Proof.
  induction s as [|c s IH]; simpl; [reflexivity|].
  intros [Hc Hs]%orb_false_elim. by rewrite (lower_char_fixed c Hc), (IH Hs).
Qed.

Lemma lower_idempotent s : lower (lower s) = lower s.
Proof. apply lower_fixed, has_upper_lower. Qed.

Lemma has_char_lower_space s : has_char " " (lower s) = has_char " " s.
Proof.
  induction s as [|c s IH]; simpl; [reflexivity|].
  by rewrite lower_char_space, IH.
Qed.

Lemma append_cons c s t : String c s +:+ t = String c (s +:+ t).
Proof. reflexivity. Qed.

Lemma has_upper_app s t : has_upper (s +:+ t) = has_upper s || has_upper t.
Proof.
  induction s as [|c s IH]; [reflexivity|].
  rewrite append_cons. simpl. by rewrite IH, orb_assoc.
Qed.

Lemma append_char s c t : (s +:+ String c "") +:+ t = s +:+ String c t.
Proof.
  induction s as [|d s IH]; [reflexivity|]. by rewrite !append_cons, IH.
Qed.

Lemma append_empty s : s +:+ "" = s.
Proof.
  induction s as [|d s IH]; [reflexivity|]. by rewrite append_cons, IH.
Qed.

Lemma prefix_empty s : String.prefix "" s = true.
Proof. by destruct s. Qed.

Lemma prefix_space c s : String.prefix " " (String c s) = Ascii.eqb c " ".
Proof.
  change (String.prefix " " (String c s))
    with (if ascii_dec " " c then String.prefix "" s else false).
  destruct (ascii_dec " " c) as [<-|Hne].
  - by rewrite prefix_empty.
  - symmetry. apply Ascii.eqb_neq. congruence.
Qed.

(** Every piece of a split is made of characters of the string. *)
Lemma split_go_no_upper sep s : forall skip cur,
  has_upper cur = false -> has_upper s = false ->
  Forall (fun t => has_upper t = false) (split_go sep skip cur s).
Proof.
  induction s as [|c s IH]; intros skip cur Hcur Hs; cbn [split_go].
  - by constructor.
  - cbn [has_upper] in Hs. apply orb_false_elim in Hs as [Hc Hs].
    destruct skip as [|k]; [|by apply IH].
    destruct (String.prefix sep (String c s)).
    + constructor; [assumption | by apply IH].
    + apply IH; [|assumption]. rewrite has_upper_app. simpl.
      by rewrite Hcur, Hc.
Qed.


(** A string without a space is the one piece of its split on spaces. *)
Lemma split_go_no_space s : forall cur,
  has_char " " s = false -> split_go " " O cur s = [cur +:+ s].
Proof.
  induction s as [|c s IH]; intros cur Hs.
  - simpl. by rewrite append_empty.
  - cbn [split_go]. rewrite prefix_space.
    cbn [has_char] in Hs. apply orb_false_elim in Hs as [Hc Hs].
    rewrite Hc, (IH _ Hs). by rewrite append_char.
Qed.

Lemma replace_space_no_space s : has_char " " (replace " " "_" s) = false.
Proof.
  unfold replace. induction s as [|c s IH]; [reflexivity|].
  cbn [replace_go]. rewrite prefix_space.
  destruct (Ascii.eqb c " ") eqn:Hc; simpl; [assumption|].
  by rewrite Hc, IH.
Qed.



End PyStrFacts.

(** ** The coercion of the arguments *)

Section Coercer.
Context `{Interp}.
Implicit Types (i : Command) (a : list PyVal) (error : option bool).

(** The alternatives of a declared type are all tried with the same
    conversion, that of the whole declared type. *)
Lemma for_types_fails alternatives ty arg a error :
  convert ty arg = None -> for_types alternatives ty arg a error = (a, error).
Proof.
  intros Hfail. induction alternatives as [|t alternatives IH]; simpl.
  - reflexivity.
  - by rewrite Hfail.
Qed.

Lemma for_types_converts alternatives ty arg v a error :
  alternatives <> [] -> convert ty arg = Some v ->
  for_types alternatives ty arg a error = (a ++ [v], Some false).
Proof.
  intros Hne Hv. destruct alternatives as [|t alternatives]; [contradiction|].
  simpl. by rewrite Hv.
Qed.

Lemma split_nonempty sep s : PyStr.split sep s <> [].
Proof.
  unfold PyStr.split. generalize 0%nat as skip, ""%string as cur.
  induction s as [|c s IH]; intros skip cur; cbn [PyStr.split_go]; [discriminate|].
  destruct skip; [|apply IH].
  destruct (String.prefix sep (String c s)); [discriminate | apply IH].
Qed.

(** A declared type that is none of the six names converts nothing: the
    token is passed on as it is. *)
Lemma convert_other ty arg :
  ty ∉ ["int"; "float"; "complex"; "bool"; "bytes"; "bytearray"] ->
  convert ty arg = Some (PyStr arg).
Proof.
  intros Hno. unfold convert.
  repeat match goal with
  | |- context [String.eqb ty ?k] =>
      destruct (String.eqb_spec ty k) as [->|_];
      [exfalso; apply Hno; repeat constructor|]
  end.
  reflexivity.
Qed.

(** A position whose conversion fails: with [error] unbound the test
    [if error] raises [UnboundLocalError]; once a conversion has succeeded
    in this call of [run], the position is skipped and the loop goes on. *)
Lemma for_args_fails i nmb ty arg tokens a error :
  types i !! nmb = Some ty -> convert ty arg = None ->
  for_args i nmb (arg :: tokens) a error
  = match error with
    | None => (None, inr (Exc UnboundLocalError unbound_error_msg))
    | Some true => (Some true, inr (Exc TypeError "unhashable type: 'list'"))
    | Some false => for_args i (S nmb) tokens a (Some false)
    end.
Proof.
  intros Hty Hfail. cbn [for_args]. rewrite Hty.
  rewrite (for_types_fails _ ty arg a error Hfail).
  by destruct error as [[]|].
Qed.

(** C2. The claim: the alternatives of a declared type are tried left to
    right and the first that converts gives the result, so that the token
    [3] under [int | float] becomes the integer 3.  On the code the chain
    of conversions tests the whole declared type, never the alternative at
    hand: [int | float] is none of the six names, and the token is passed
    to the handler as the string it was, as is every token under every
    declared type that is none of the six names. *)
Theorem union_type_passes_the_string (a : list PyVal) (error : option bool) :
  for_types (PyStr.split " | " "int | float") "int | float" "3" a error
  = (a ++ [PyStr "3"], Some false)
  /\ step_events (run typed_cli [Line "scale 3"])
     = [Called (entry "scale" None scale_func []) [PyStr "3"]]
  /\ (forall ty arg,
        ty ∉ ["int"; "float"; "complex"; "bool"; "bytes"; "bytearray"] ->
        for_types (PyStr.split " | " ty) ty arg a error = (a ++ [PyStr arg], Some false)).
Proof.
  split; [reflexivity|]. split; [reflexivity|].
  intros ty arg Hty. apply for_types_converts; [apply split_nonempty|].
  by apply convert_other.
Qed.

(** C3. The claim: when no alternative converts the token, an error naming
    the token and the kinds is raised and the handler is not called.  On
    the code the flag [error] is never set to true.  On a first line
    [add abc] reading the unbound flag raises an [UnboundLocalError], whose
    text is printed and names neither the token nor the kind; after a line
    that converted, the flag is false, the position is skipped, and the
    handler is called without the argument: it runs when its parameter has
    a default, and otherwise the call itself raises, for the missing
    argument. *)
Theorem failed_conversion_calls_the_handler :
  step_events (run typed_cli [Line "add abc"]) = [Printed unbound_error_msg]
  /\ step_events (run typed_cli [Line "add 5"; Line "add abc"])
     = [Called (entry "add" None add_func []) [PyInt 5];
        Called (entry "add" None add_func []) []]
  /\ step_events (run strict_cli [Line "total 5"; Line "total abc"])
     = [Called (entry "total" None total_func []) [PyInt 5];
        Called (entry "total" None total_func []) [];
        Printed "total() missing 1 required positional argument: 'x'"].
Proof. repeat split; reflexivity. Qed.

(** C4. At a position declared [bool], every non-empty token, [false]
    included, converts: the value appended is the boolean true and the loop
    goes on to the next position with the flag [error] false. *)
Theorem for_args_bool i nmb arg tokens a error :
  types i !! nmb = Some "bool" -> arg <> "" ->
  convert "bool" arg = Some (PyBool true)
  /\ for_args i nmb (arg :: tokens) a error
     = for_args i (S nmb) tokens (a ++ [PyBool true]) (Some false).
Proof.
  intros Hty Harg.
  assert (Hconv : convert "bool" arg = Some (PyBool true)).
  { unfold convert. simpl. destruct arg; [contradiction | reflexivity]. }
  split; [assumption|].
  cbn [for_args]. rewrite Hty.
  by rewrite (for_types_converts _ "bool" arg (PyBool true) a error
                (split_nonempty _ _) Hconv).
Qed.

(** C6. The claim: some tokens convert under [bytes] and under [bytearray].
    On the code both conversions are called on a [str] without an encoding,
    which raises for every token: no value of either kind is ever appended,
    and the flag [error] is left as it was; on a first line [send abc] the
    handler is not called. *)
Theorem bytes_never_convert (arg : string) (a : list PyVal) (error : option bool) :
  for_types (PyStr.split " | " "bytes") "bytes" arg a error = (a, error)
  /\ for_types (PyStr.split " | " "bytearray") "bytearray" arg a error = (a, error)
  /\ step_events (run typed_cli [Line "send abc"]) = [Printed unbound_error_msg].
Proof.
  split; [|split]; [by apply for_types_fails..|reflexivity].
Qed.

End Coercer.

(** ** The dispatch loop *)

Section Dispatch.
Context `{Interp}.
Implicit Types (self : CLI) (i j : Command) (l : list Command)
  (a : list PyVal) (error : option bool).

Local Abbreviation name_le := (fun i j => String.leb (name i) (name j) = true).

(** *** The sort *)

Lemma leb_trans (s1 s2 s3 : string) :
  String.leb s1 s2 = true -> String.leb s2 s3 = true -> String.leb s1 s3 = true.
Proof.
  intros H12%Is_true_true H23%Is_true_true. apply Is_true_true.
  exact (transitivity (R := String.le) H12 H23).
Qed.

Lemma leb_false_flip (s1 s2 : string) :
  String.leb s1 s2 = false -> String.leb s2 s1 = true.
Proof. destruct (String.leb_total s1 s2); congruence. Qed.

Lemma insert_by_name_perm i l : Permutation (insert_by_name i l) (i :: l).
Proof.
  induction l as [|j l IH]; simpl; [reflexivity|].
  destruct (String.leb (name i) (name j)); [reflexivity|].
  rewrite IH. apply perm_swap.
Qed.

Lemma sorted_by_name_perm l : Permutation (sorted_by_name l) l.
Proof.
  induction l as [|i l IH]; simpl; [reflexivity|].
  rewrite insert_by_name_perm. by constructor.
Qed.

Lemma insert_by_name_sorted i l :
  StronglySorted name_le l -> StronglySorted name_le (insert_by_name i l).
Proof.
  induction 1 as [|j l Hl IH Hj]; simpl.
  - constructor; constructor.
  - destruct (String.leb (name i) (name j)) eqn:Hij.
    + constructor; [by constructor|].
      constructor; [assumption|].
      eapply Forall_impl; [exact Hj|]. intros k Hjk. simpl in *.
      by eapply leb_trans.
    + constructor; [assumption|].
      rewrite insert_by_name_perm. constructor; [|assumption].
      by apply leb_false_flip.
Qed.

Lemma sorted_by_name_sorted l : StronglySorted name_le (sorted_by_name l).
Proof.
  induction l as [|i l IH]; simpl; [constructor|].
  by apply insert_by_name_sorted.
Qed.

Lemma elem_of_sorted_by_name i l : i ∈ sorted_by_name l <-> i ∈ l.
Proof. by rewrite (sorted_by_name_perm l). Qed.

(** *** The text of [help] *)

Lemma help_text_from (l : list Command) (text : string) :
  fold_left (fun text i => text +:+ help_line i +:+ PyStr.newline) l text
  = text +:+ help_text l.
Proof.
  unfold help_text. revert text.
  induction l as [|i l IH]; intros text; simpl.
  - by rewrite PyStrFacts.append_empty.
  - rewrite IH. rewrite (IH ("" +:+ _)).
    change ("" +:+ help_line i +:+ PyStr.newline) with (help_line i +:+ PyStr.newline).
    generalize (fold_left (fun text i => text +:+ help_line i +:+ PyStr.newline) l "").
    intros rest. induction text as [|c text IHt]; [reflexivity|].
    by rewrite !PyStrFacts.append_cons, IHt.
Qed.

Lemma help_text_cons i l :
  help_text (i :: l) = help_line i +:+ PyStr.newline +:+ help_text l.
Proof.
  unfold help_text at 1. simpl. rewrite help_text_from.
  change ("" +:+ help_line i +:+ PyStr.newline) with (help_line i +:+ PyStr.newline).
  generalize (help_line i) as x, (help_text l) as rest.
  induction x as [|c x IH]; intros rest; [reflexivity|].
  by rewrite !PyStrFacts.append_cons, IH.
Qed.

Lemma drop_last_app (x y : string) :
  y <> "" -> PyStr.drop_last (x +:+ y) = x +:+ PyStr.drop_last y.
Proof.
  intros Hy. induction x as [|c x IH]; [reflexivity|].
  rewrite !PyStrFacts.append_cons. cbn [PyStr.drop_last]. rewrite IH.
  destruct (x +:+ y) eqn:Hxy; [|reflexivity].
  destruct x; [|discriminate]. simpl in Hxy. contradiction.
Qed.

(** One line for each entry, in the order of the list. *)
Lemma help_text_lines l :
  PyStr.drop_last (help_text l) = PyStr.join PyStr.newline (map help_line l).
Proof.
  induction l as [|i l IH]; [reflexivity|].
  rewrite help_text_cons.
  destruct l as [|j l].
  - change (help_text []) with ""%string. rewrite drop_last_app by discriminate.
    simpl. by rewrite PyStrFacts.append_empty.
  - rewrite drop_last_app.
    + rewrite drop_last_app.
      * rewrite IH. reflexivity.
      * rewrite help_text_cons. destruct (help_line j); discriminate.
    + discriminate.
Qed.

(** *** One pass of the loop *)

Lemma selects_false i first :
  selects i first = false <-> name i <> first /\ first ∉ alias i.
Proof.
  unfold selects, contains. rewrite orb_false_iff, String.eqb_neq.
  apply and_iff_compat_l. split.
  - intros Hex Hin. apply list_elem_of_In in Hin.
    assert (existsb (String.eqb first) (alias i) = true); [|congruence].
    apply existsb_exists. exists first. by rewrite String.eqb_refl.
  - intros Hno. destruct (existsb (String.eqb first) (alias i)) eqn:Hex; [|reflexivity].
    apply existsb_exists in Hex as (x & Hin & ->%String.eqb_eq).
    exfalso. by apply Hno, list_elem_of_In.
Qed.

(** The loop over the entries calls the first entry the token selects. *)
Lemma for_commands_find self first rest error l :
  for_commands self first rest error l
  = match find (fun i => selects i first) l with
    | None => (error, [Echo (not_exist self)], Returns)
    | Some i =>
        match for_args i O (take (length (args i)) rest) [] error with
        | (error', inr e) => (error', [], Raises e)
        | (error', inl a) =>
            (error', Called i a :: fst (invoke self (function i) a),
             snd (invoke self (function i) a))
        end
    end.
Proof.
  induction l as [|i l IH]; simpl; [reflexivity|].
  destruct (selects i first); [|exact IH].
  destruct (for_args i 0 (take (length (args i)) rest) [] error) as [error' [a|e]];
    [|reflexivity].
  by destruct (invoke self (function i) a).
Qed.

Lemma find_none_selects first l :
  (forall i, i ∈ l -> name i <> first /\ first ∉ alias i) ->
  find (fun i => selects i first) l = None.
Proof.
  intros Hno. induction l as [|i l IH]; simpl; [reflexivity|].
  assert (Hi : selects i first = false) by (apply selects_false, Hno; left).
  rewrite Hi. apply IH. intros j Hj. apply Hno. by right.
Qed.

(** The coercion raises nothing but errors. *)
Lemma for_args_raises i : forall tokens nmb a error error' e,
  for_args i nmb tokens a error = (error', inr e) -> is_Exception e = true.
Proof.
  induction tokens as [|arg tokens IH]; intros nmb a error error' e; simpl.
  - discriminate.
  - destruct (types i !! nmb) as [ty|]; [|by intros [= _ <-]].
    destruct (for_types (PyStr.split " | " ty) ty arg a error) as [a1 [[]|]].
    + by intros [= _ <-].
    + apply IH.
    + by intros [= _ <-].
Qed.

(** The three closures send no call. *)
Lemma invoke_sends_no_call self h a i' a' :
  Called i' a' ∉ fst (invoke self h a).
Proof.
  intros Hin. destruct h, a; simpl in Hin; unfold help in Hin;
    repeat match goal with
    | Hin : _ ∈ [] |- _ => inversion Hin
    | Hin : _ ∈ _ :: _ |- _ => apply elem_of_cons in Hin as [Hin|Hin]; [discriminate|]
    end.
Qed.

Lemma invoke_outcome self self' h a :
  snd (invoke self h a) = snd (invoke self' h a).
Proof. by destruct h, a. Qed.

Lemma handle_control o :
  snd (handle o) = if stops o then
                     match o with KillsProcess => Killed | _ => Propagates SystemExit end
                   else Continue.
Proof. by destruct o as [|[]|]. Qed.

(** The pass on a line, in terms of the loop over the entries. *)
Lemma iteration_line self error line :
  iteration self error (Line line)
  = let self' := set_cmd self (sorted_by_name (cmd self)) in
    let tokens := PyStr.split " " (PyStr.lower line) in
    let r := for_commands self' (hd "" tokens) (tl tokens) error (cmd self') in
    mkStep self' (fst (fst r)) (snd (fst r) ++ fst (handle (snd r)))
           (snd (handle (snd r))).
Proof.
  unfold iteration. cbv zeta.
  destruct (for_commands _ _ _ _ _) as [[error' evs] o]. simpl.
  by destruct (handle o).
Qed.

(** Every pass leaves the registry sorted, whatever the read gives. *)
Lemma iteration_sorts self error r :
  step_cli (iteration self error r) = set_cmd self (sorted_by_name (cmd self)).
Proof.
  destruct r as [line|e].
  - by rewrite iteration_line.
  - unfold iteration. by destruct (handle (Raises e)).
Qed.

(** C7. Every pass of the loop starts by sorting the registry on the names,
    whatever the read then gives: the registry it leaves is a permutation
    of the one it found, each name at most the names after it.  The text
    [help] sends is one line for each entry of the registry, in its order,
    made of the aliases, the name, the placeholders of the parameters and
    the description of the entry ([help_line]); so when the line entered
    selects the closure of [help], the pass calls it and echoes these lines
    in the order of the names. *)
Theorem iteration_sorts_and_help_lists (self : CLI) (error : option bool) (r : Read) :
  let s := iteration self error r in
  let l := sorted_by_name (cmd self) in
  cmd (step_cli s) = l
  /\ Permutation l (cmd self)
  /\ StronglySorted (fun i j => String.leb (name i) (name j) = true) l
  /\ length (map help_line l) = length (cmd self)
  /\ (forall i, help_line i
                = "Alias    " +:+ PyStr.join ", " (alias i) +:+ " -> " +:+ name i
                  +:+ " " +:+ PyStr.join " " (args i) +:+ default "" (doc i))
  /\ help (step_cli s) = [Echo (PyStr.join PyStr.newline (map help_line l))]
  /\ (forall line i,
        r = Line line ->
        find (fun i => selects i (hd "" (PyStr.split " " (PyStr.lower line)))) l = Some i ->
        function i = HelpClosure -> args i = [] ->
        s = mkStep (set_cmd self l) error
              [Called i []; Echo (PyStr.join PyStr.newline (map help_line l))]
              Continue).
Proof.
  intros s l. subst s l.
  split; [by rewrite iteration_sorts|].
  split; [apply sorted_by_name_perm|].
  split; [apply sorted_by_name_sorted|].
  split; [by rewrite length_map, (Permutation_length (sorted_by_name_perm _))|].
  split; [reflexivity|].
  split.
  { rewrite iteration_sorts. unfold help. simpl. by rewrite help_text_lines. }
  intros line i -> Hfind Hhelp Hargs.
  rewrite iteration_line. cbv zeta. rewrite for_commands_find.
  cbn [cmd set_cmd]. rewrite Hfind, Hargs, Hhelp. simpl.
  unfold help. simpl. by rewrite help_text_lines.
Qed.

(** C8. When the first token of the lowered line is the name of no
    registered command and an alias of none, the pass echoes the text
    [not_exist] and nothing else, calls no handler, and the loop goes on. *)
Theorem unknown_command_echoes_not_exist (self : CLI) (error : option bool)
    (line : string) :
  let first := hd "" (PyStr.split " " (PyStr.lower line)) in
  (forall i, i ∈ cmd self -> name i <> first /\ first ∉ alias i) ->
  iteration self error (Line line)
  = mkStep (set_cmd self (sorted_by_name (cmd self))) error
           [Echo (not_exist self)] Continue.
Proof.
  intros first Hno. rewrite iteration_line. cbv zeta.
  rewrite for_commands_find. fold first. cbn [cmd set_cmd].
  rewrite find_none_selects; [reflexivity|].
  intros i Hi. apply Hno. by apply elem_of_sorted_by_name.
Qed.

(** What a pass on a line can be: nothing selected, a coercion that raised
    an error, or a call. *)
Lemma iteration_cases self error line :
  let s := iteration self error (Line line) in
  (step_events s = [Echo (not_exist self)] /\ step_control s = Continue)
  \/ (exists cls msg, step_events s = [Printed msg] /\ step_control s = Continue
        /\ is_Exception (Exc cls msg) = true)
  \/ (exists i a o,
        i ∈ cmd (step_cli s)
        /\ o = snd (invoke (step_cli s) (function i) a)
        /\ step_events s
           = Called i a :: fst (invoke (step_cli s) (function i) a) ++ fst (handle o)
        /\ step_control s = snd (handle o)).
Proof.
  intros s. subst s. rewrite iteration_line. cbv zeta.
  rewrite for_commands_find. cbn [cmd set_cmd].
  destruct (find _ _) as [i|] eqn:Hfind; [|by left].
  right.
  destruct (for_args i 0 _ [] error) as [error' [a|e]] eqn:Hargs.
  - right. exists i, a, (snd (invoke (set_cmd self (sorted_by_name (cmd self)))
                                   (function i) a)).
    cbn [fst snd step_cli step_events step_control cmd set_cmd].
    split; [|by repeat split].
    apply find_some in Hfind as [Hin _]. by apply list_elem_of_In.
  - left. pose proof (for_args_raises _ _ _ _ _ _ _ Hargs) as He.
    destruct e as [| |cls msg]; try discriminate.
    exists cls, msg. by repeat split.
Qed.

(** C9. An interrupt of the read restarts the loop with nothing sent, and
    an error raised by the read is printed and the loop goes on.  On a line,
    whatever the lookup and the coercion do, the loop goes on unless a
    handler was called and ended in a way that is no error (it killed the
    process, or raised an exception outside [Exception]); and whenever the
    handler called returned, raised an error or raised an interrupt, the
    loop goes on. *)
Theorem iteration_catches_errors (self : CLI) (error : option bool) (r : Read) :
  let s := iteration self error r in
  (r = ReadRaises KeyboardInterrupt ->
     step_events s = [] /\ step_control s = Continue)
  /\ (forall cls msg, r = ReadRaises (Exc cls msg) ->
        step_events s = [Printed msg] /\ step_control s = Continue)
  /\ (forall line, r = Line line ->
        step_control s = Continue
        \/ exists i a, Called i a ∈ step_events s /\ i ∈ cmd (step_cli s)
             /\ stops (snd (invoke (step_cli s) (function i) a)) = true)
  /\ (forall line i a, r = Line line -> Called i a ∈ step_events s ->
        stops (snd (invoke (step_cli s) (function i) a)) = false ->
        step_control s = Continue).
Proof.
  intros s. subst s.
  split; [by intros ->|]. split; [by intros cls msg ->|].
  split.
  - intros line ->.
    destruct (iteration_cases self error line)
      as [[_ Hc]|[(cls & msg & _ & Hc & _)|(i & a & o & Hin & -> & Hev & Hc)]];
      [by left..|].
    rewrite Hc, handle_control.
    destruct (stops _) eqn:Hstop; [|by left].
    right. exists i, a. rewrite Hev. repeat split; [left | assumption..].
  - intros line i a -> Hcalled Hstop.
    destruct (iteration_cases self error line)
      as [[Hev Hc]|[(cls & msg & Hev & Hc & _)|(i' & a' & o & Hin & -> & Hev & Hc)]];
      [assumption..|].
    rewrite Hev in Hcalled.
    apply elem_of_cons in Hcalled as [[= -> ->]|Hcalled].
    + by rewrite Hc, handle_control, Hstop.
    + exfalso. apply elem_of_app in Hcalled as [Hcalled|Hcalled].
      * by apply invoke_sends_no_call in Hcalled.
      * destruct (snd (invoke _ (function i') a')) as [|[]|]; simpl in Hcalled;
          repeat match goal with
          | Hin : _ ∈ [] |- _ => inversion Hin
          | Hin : _ ∈ _ :: _ |- _ =>
              apply elem_of_cons in Hin as [Hin|Hin]; [discriminate|]
          end.
Qed.

(** As long as no read raises [SystemExit] and no registered handler ends
    otherwise than by returning, raising an error or raising an interrupt,
    the loop goes on after any number of reads. *)
Lemma run_from_goes_on (reads : list Read) : forall self error,
  (forall i a, i ∈ cmd self -> stops (snd (invoke self (function i) a)) = false) ->
  Forall (fun r => r <> ReadRaises SystemExit) reads ->
  step_control (run_from self error reads) = Continue.
Proof.
  induction reads as [|r reads IH]; intros self error Hhandlers Hreads;
    [reflexivity|].
  inversion_clear Hreads as [|? ? Hr Hrest].
  assert (Hgo : step_control (iteration self error r) = Continue).
  { destruct r as [line|e].
    - destruct (iteration_cases self error line)
        as [[_ Hc]|[(cls & msg & _ & Hc & _)|(i & a & o & Hin & -> & _ & Hc)]];
        [assumption..|].
      rewrite Hc, handle_control.
      rewrite iteration_sorts in Hin. cbn [cmd set_cmd] in Hin.
      apply (proj1 (elem_of_sorted_by_name _ _)) in Hin.
      by rewrite (invoke_outcome _ self), (Hhandlers i a Hin).
    - destruct e; [reflexivity | contradiction | reflexivity]. }
  cbn [run_from]. rewrite Hgo. cbn [step_control].
  apply IH; [|assumption].
  rewrite iteration_sorts. cbn [cmd set_cmd].
  intros i a Hin. apply (proj1 (elem_of_sorted_by_name _ _)) in Hin.
  by rewrite (invoke_outcome _ self), (Hhandlers i a Hin).
Qed.

(** *** Names, aliases and the case of the line *)

Lemma normalize_no_upper nm : PyStr.has_upper (normalize nm) = false.
Proof. apply PyStrFacts.has_upper_lower. Qed.

Lemma normalize_no_space nm : PyStr.has_char " " (normalize nm) = false.
Proof.
  unfold normalize.
  by rewrite PyStrFacts.has_char_lower_space, PyStrFacts.replace_space_no_space.
Qed.



End Dispatch.

(** ** The theorems at concrete shells *)

Section Witnesses.
Local Existing Instance plain_interp.

Lemma for_args_bool_witness :
  for_args (entry "flag" None flag_func []) 0 ["false"] [] None
  = (Some false, inl [PyBool true]).
Proof.
  destruct (for_args_bool (entry "flag" None flag_func []) 0 "false" [] [] None eq_refl)
    as [_ Hloop].
  - discriminate.
  - exact Hloop.
Defined.

Lemma command_replaces_or_appends_witness :
  snd (command two_cli (Some "Second") None ["z"] first_func) = None
  /\ cmd two_cli !! 4%nat = Some (entry "second" None second_func ["s"])
  /\ cmd (fst (command two_cli (Some "Second") None ["z"] first_func)) !! 4%nat
     = Some (entry "second" None first_func ["z"])
  /\ length (cmd (fst (command two_cli (Some "Second") None ["z"] first_func)))
     = length (cmd two_cli).
Proof.
  destruct (command_replaces_or_appends two_cli (Some "Second") None ["z"] first_func)
    as (Hnone & Hat & Hsize & _).
  - intros value i Hv Hi.
    apply (proj1 (alias_clash_None ["z"] (alias value))); [|exact Hi].
    revert value Hv. apply Forall_forall. repeat constructor.
  - split; [exact Hnone|]. split; [reflexivity|].
    split; [exact (Hat 4%nat _ eq_refl)|].
    apply Hsize. exists (entry "second" None second_func ["s"]).
    split; [|reflexivity]. apply (list_elem_of_lookup_2 _ 4%nat). reflexivity.
Defined.

Lemma unknown_command_echoes_not_exist_witness :
  iteration default_cli None (Line "frobnicate")
  = mkStep (set_cmd default_cli (sorted_by_name (cmd default_cli))) None
           [Echo not_exist_default] Continue.
Proof.
  apply (unknown_command_echoes_not_exist default_cli None "frobnicate").
  intros i Hi. apply selects_false. revert i Hi. apply Forall_forall.
  repeat constructor.
Defined.

Lemma iteration_sorts_and_help_lists_witness :
  iteration typed_cli None (Line "help")
  = mkStep (set_cmd typed_cli (sorted_by_name (cmd typed_cli))) None
      [Called (entry "help" (Some "Displays info about terminal commands.")
                 help_func ["?"]) [];
       Echo (PyStr.join PyStr.newline
               (map help_line (sorted_by_name (cmd typed_cli))))]
      Continue.
Proof.
  destruct (iteration_sorts_and_help_lists typed_cli None (Line "help"))
    as (_ & _ & _ & _ & _ & _ & Hhelp).
  exact (Hhelp "help" _ eq_refl eq_refl eq_refl eq_refl).
Defined.

Lemma iteration_catches_errors_witness :
  step_events (iteration failing_cli None (Line "fail"))
  = [Called (entry "fail" None fail_func []) []; Printed "no"]
  /\ step_control (iteration failing_cli None (Line "fail")) = Continue.
Proof.
  split; [reflexivity|].
  destruct (iteration_catches_errors failing_cli None (Line "fail"))
    as (_ & _ & _ & Hcaught).
  apply (Hcaught "fail" (entry "fail" None fail_func []) [] eq_refl);
    [left | reflexivity].
Defined.

End Witnesses.

(** ** More on the registry *)

Section RegistryInvariants.
Context `{Interp}.
Implicit Types (new value : Command) (l pre post : list Command).

Local Abbreviation same_name new := (fun value => String.eqb (name value) (name new)).
Local Abbreviation overwrite new :=
  (fun value => if String.eqb (name value) (name new) then new else value).
Local Abbreviation free new :=
  (fun value => alias_clash (alias new) (alias value) = None).

(** The two ways a registration ends. *)
Lemma register_cases new l :
  (Forall (free new) l
   /\ register new l
      = (map (overwrite new) l ++ (if existsb (same_name new) l then [] else [new]),
         None))
  \/ (exists post value i post',
        l = post ++ value :: post'
        /\ Forall (free new) post
        /\ alias_clash (alias new) (alias value) = Some i
        /\ register new l
           = (map (overwrite new) post ++ value :: post', Some (alias_error value i))).
Proof.
  destruct (first_clash new l) as [Hfree|(post & value & i & post' & -> & Hfree & Hclash)].
  - left. split; [assumption|]. unfold register.
    pose proof (wrapper_loop_free new l [] false Hfree) as Hw.
    cbn [app length orb] in Hw. rewrite Hw.
    destruct (existsb (same_name new) l); [by rewrite app_nil_r | reflexivity].
  - right. exists post, value, i, post'. repeat split; try assumption.
    unfold register.
    pose proof (wrapper_loop_clash new value i post post' [] false Hfree Hclash) as Hw.
    cbn [app length] in Hw. by rewrite Hw.
Qed.

Lemma overwrite_name new value : name (overwrite new value) = name value.
Proof.
  cbn beta. destruct (String.eqb (name value) (name new)) eqn:Heq; [|reflexivity].
  apply String.eqb_eq in Heq. congruence.
Qed.

Lemma map_overwrite_names new l : map name (map (overwrite new) l) = map name l.
Proof.
  induction l as [|v l IH]; [reflexivity|].
  cbn [map]. by rewrite overwrite_name, IH.
Qed.

Lemma map_overwrite_fresh new l :
  existsb (same_name new) l = false -> map (overwrite new) l = l.
Proof.
  induction l as [|v l IH]; [reflexivity|].
  cbn [existsb map]. intros [Hv Hl]%orb_false_elim. by rewrite Hv, (IH Hl).
Qed.

Lemma existsb_same_name new l :
  existsb (same_name new) l = true <-> name new ∈ map name l.
Proof.
  rewrite existsb_exists, list_elem_of_In, in_map_iff.
  split.
  - intros (v & Hin & Hv%String.eqb_eq). exists v. by split.
  - intros (v & Hv & Hin). exists v. split; [assumption | by apply String.eqb_eq].
Qed.

(** The names, in the order of the registry, after a registration. *)
Lemma register_names new l :
  map name (fst (register new l))
  = map name l
    ++ (if existsb (same_name new) l then []
        else match snd (register new l) with None => [name new] | Some _ => [] end).
Proof.
  destruct (register_cases new l)
    as [[_ ->]|(post & value & i & post' & -> & _ & _ & ->)]; cbn [fst snd].
  - rewrite map_app, map_overwrite_names.
    by destruct (existsb (same_name new) l).
  - rewrite !map_app. cbn [map]. rewrite map_overwrite_names.
    destruct (existsb _ _); by rewrite app_nil_r.
Qed.

(** X1. A registration raises exactly when an alias of the new command is
    an alias of a registered one: when it raises, the error is the alias
    error, for a registered command and an alias the two share; when it
    does not, no alias of the new command is an alias of any registered
    command. *)
Theorem register_raises_exactly_on_clash (new : Command) (l : list Command) :
  match snd (register new l) with
  | Some e =>
      exists value i,
        e = alias_error value i /\ value ∈ l /\ i ∈ alias new /\ i ∈ alias value
  | None => forall value i, value ∈ l -> i ∈ alias new -> i ∉ alias value
  end.
Proof.
  destruct (register_cases new l)
    as [[Hfree ->]|(post & value & i & post' & -> & _ & Hclash & ->)]; cbn [snd].
  - intros value i Hin Hi. rewrite Forall_forall in Hfree.
    by apply (proj1 (alias_clash_None _ _) (Hfree value Hin)).
  - exists value, i. destruct (alias_clash_Some _ _ _ Hclash).
    repeat split; try assumption. apply elem_of_app. right. left.
Qed.

(** X2. Whatever a registration does, raise included, every registered
    command keeps its index and its name, and the registry grows by at most
    one entry: the names after it are the names before it, followed by the
    new name exactly when nothing was raised and the name was not there. *)
Theorem register_keeps_names (new : Command) (l : list Command) :
  (map name (fst (register new l)) = map name l
   /\ ((name new ∈ map name l) \/ (exists e, snd (register new l) = Some e)))
  \/ (map name (fst (register new l)) = map name l ++ [name new]
      /\ (name new ∉ map name l) /\ snd (register new l) = None).
Proof.
  pose proof (register_names new l) as Hnames.
  destruct (existsb (same_name new) l) eqn:Hex.
  - left. rewrite app_nil_r in Hnames. split; [assumption|].
    left. by apply existsb_same_name.
  - destruct (snd (register new l)) as [e|] eqn:Hsnd.
    + left. rewrite app_nil_r in Hnames. split; [assumption|]. right. by exists e.
    + right. split; [assumption|]. split; [|reflexivity].
      intros Hin%existsb_same_name. congruence.
Qed.

Lemma command_register self nm dc al func :
  command self nm dc al func
  = (set_cmd self (fst (register (decorated nm dc al func) (cmd self))),
     snd (register (decorated nm dc al func) (cmd self))).
Proof.
  unfold command, decorated. by destruct (register _ (cmd self)).
Qed.

(** Where the entries of the registry come from when nothing was raised. *)
Lemma register_lookup new l k w :
  snd (register new l) = None ->
  fst (register new l) !! k = Some w ->
  (exists v, l !! k = Some v /\ w = overwrite new v)
  \/ (k = length l /\ w = new /\ existsb (same_name new) l = false).
Proof.
  destruct (register_cases new l)
    as [[_ ->]|(post & value & i & post' & _ & _ & _ & ->)]; cbn [fst snd];
    [|discriminate].
  intros _ Hk. apply lookup_app_Some in Hk as [Hk|[Hlen Hk]].
  - left. rewrite lookup_map in Hk.
    destruct (l !! k) as [v|]; [|discriminate]. exists v. split; [reflexivity|].
    by injection Hk as <-.
  - right. rewrite length_map in Hlen, Hk. revert Hk.
    destruct (existsb (same_name new) l); cbn iota; [by rewrite lookup_nil|].
    destruct (k - length l)%nat as [|n] eqn:Hsub; [|by destruct n].
    intros [= <-]. repeat split. lia.
Qed.

(** A registration that raised nothing left the new entry in the registry. *)
Lemma register_member new l :
  snd (register new l) = None -> new ∈ fst (register new l).
Proof.
  destruct (register_cases new l)
    as [[_ ->]|(post & value & i & post' & _ & _ & _ & ->)]; cbn [fst snd];
    [|discriminate].
  intros _. destruct (existsb (same_name new) l) eqn:Hex.
  - rewrite app_nil_r. apply existsb_exists in Hex as (v & Hin & Hv).
    apply list_elem_of_In, in_map_iff. exists v. split; [|assumption].
    cbn beta. by rewrite Hv.
  - apply elem_of_app. right. left.
Qed.

(** X3. A registration that raises nothing keeps the registry well formed:
    the names stay pairwise distinct and no alias comes to be shared by two
    entries. *)
Theorem command_keeps_well_formed (self : CLI) (nm dc : option string)
    (al : list string) (func : Func) :
  well_formed (cmd self) ->
  snd (command self nm dc al func) = None ->
  well_formed (cmd (fst (command self nm dc al func))).
Proof.
  rewrite command_register. cbn [fst snd cmd set_cmd].
  set (new := decorated nm dc al func). intros [Hnames Hapart] Hnone.
  split.
  { pose proof (register_names new (cmd self)) as Hn. rewrite Hnone in Hn.
    rewrite Hn. destruct (existsb (same_name new) (cmd self)) eqn:Hex;
      [by rewrite app_nil_r|].
    apply NoDup_app. split; [assumption|]. split; [|apply NoDup_singleton].
    intros x Hx [->|Hnil]%elem_of_cons; [|inversion Hnil].
    apply existsb_same_name in Hx. congruence. }
  assert (Hfree : forall v i, v ∈ cmd self -> i ∈ alias new -> i ∉ alias v).
  { destruct (register_cases new (cmd self))
      as [[Hfree _]|(post & value & i & post' & _ & _ & _ & Hreg)].
    - intros v i Hv Hi. rewrite Forall_forall in Hfree.
      by apply (proj1 (alias_clash_None _ _) (Hfree v Hv)).
    - rewrite Hreg in Hnone. discriminate. }
  assert (Hold : forall k v, cmd self !! k = Some v -> name v = name new ->
                   forall k' v', cmd self !! k' = Some v' -> name v' = name new -> k = k').
  { intros k v Hk Hv k' v' Hk' Hv'.
    apply (NoDup_lookup _ k k' (name new) Hnames);
      rewrite lookup_map; [by rewrite Hk, <- Hv | by rewrite Hk', <- Hv']. }
  intros k1 k2 w1 w2 i Hk1 Hk2 Hi1 Hi2.
  apply (register_lookup _ _ _ _ Hnone) in Hk1, Hk2.
  destruct Hk1 as [(v1 & Hv1 & ->)|(-> & -> & Hex1)];
    destruct Hk2 as [(v2 & Hv2 & ->)|(-> & -> & Hex2)]; [| | |reflexivity].
  - cbn beta in Hi1, Hi2.
    destruct (String.eqb (name v1) (name new)) eqn:Hn1;
      destruct (String.eqb (name v2) (name new)) eqn:Hn2.
    + apply String.eqb_eq in Hn1, Hn2. by eapply Hold.
    + exfalso. by apply (Hfree v2 i (list_elem_of_lookup_2 _ _ _ Hv2)).
    + exfalso. by apply (Hfree v1 i (list_elem_of_lookup_2 _ _ _ Hv1)).
    + by eapply Hapart.
  - exfalso. cbn beta in Hi1.
    destruct (String.eqb (name v1) (name new)) eqn:Hn1.
    + assert (existsb (same_name new) (cmd self) = true); [|congruence].
      apply existsb_exists. exists v1.
      split; [by apply list_elem_of_In, (list_elem_of_lookup_2 _ k1) | assumption].
    + by apply (Hfree v1 i (list_elem_of_lookup_2 _ _ _ Hv1)).
  - exfalso. cbn beta in Hi2.
    destruct (String.eqb (name v2) (name new)) eqn:Hn2.
    + assert (existsb (same_name new) (cmd self) = true); [|congruence].
      apply existsb_exists. exists v2.
      split; [by apply list_elem_of_In, (list_elem_of_lookup_2 _ k2) | assumption].
    + by apply (Hfree v2 i (list_elem_of_lookup_2 _ _ _ Hv2)).
Qed.

(** A registration, raising or not, leaves in place every entry that has
    another name than the new command. *)
Lemma register_keeps_other new l v :
  v ∈ l -> name v <> name new -> v ∈ fst (register new l).
Proof.
  intros Hin Hname.
  assert (Hv : overwrite new v = v).
  { cbn beta. apply String.eqb_neq in Hname. by rewrite Hname. }
  assert (Hmap : forall l0, v ∈ l0 -> v ∈ map (overwrite new) l0).
  { intros l0 Hl0. apply list_elem_of_In, in_map_iff. exists v.
    split; [assumption | by apply list_elem_of_In]. }
  destruct (register_cases new l)
    as [[_ ->]|(post & value & i & post' & -> & _ & _ & ->)]; cbn [fst].
  - apply elem_of_app. left. by apply Hmap.
  - apply elem_of_app in Hin as [Hin|Hin]; apply elem_of_app;
      [left; by apply Hmap | by right].
Qed.

Lemma commands_keep_entry (regs : list (option string * list string * Func)) :
  forall self v,
    v ∈ cmd self ->
    (forall nm al f, (nm, al, f) ∈ regs -> name (decorated nm None al f) <> name v) ->
    v ∈ cmd (commands self regs).
Proof.
  induction regs as [|[[nm al] f] regs IH]; intros self v Hin Hnames; [assumption|].
  cbn [commands]. apply IH.
  - rewrite command_register. cbn [fst cmd set_cmd].
    apply register_keeps_other; [assumption|].
    apply not_eq_sym, (Hnames nm al f). left.
  - intros nm1 al1 f1 Hreg. apply Hnames. by right.
Qed.

(** X4. Once a command was registered with an alias, the alias stays
    taken as long as the command is not redefined: after any registrations
    under other names, raising or not, a registration that lists this alias
    raises the alias error, the registration of the same command again under
    the same aliases included. *)
Theorem alias_stays_taken_until_redefined (self : CLI) (nm dc nm' dc' : option string)
    (al al' : list string) (func func' : Func) (i : string)
    (regs : list (option string * list string * Func)) :
  snd (command self nm dc al func) = None ->
  i ∈ al -> i ∈ al' ->
  (forall nm1 al1 f1, (nm1, al1, f1) ∈ regs ->
     name (decorated nm1 None al1 f1) <> name (decorated nm dc al func)) ->
  exists value j,
    snd (command (commands (fst (command self nm dc al func)) regs) nm' dc' al' func')
    = Some (alias_error value j)
    /\ j ∈ al' /\ j ∈ alias value.
Proof.
  intros Hnone Hi Hi' Hregs.
  assert (Hin : decorated nm dc al func ∈ cmd (fst (command self nm dc al func))).
  { rewrite command_register in Hnone |- *. cbn [fst snd cmd set_cmd] in *.
    by apply register_member. }
  pose proof (commands_keep_entry regs _ _ Hin Hregs) as Hkept.
  rewrite (command_register (commands _ regs)). cbn [snd].
  destruct (register_clash_raises (decorated nm' dc' al' func') _
              (decorated nm dc al func) i Hkept Hi' Hi)
    as (v & j & Hraise & _ & Hj & Hj').
  by exists v, j.
Qed.

(** A new entry whose name is not registered and whose aliases are free is
    appended. *)
Lemma register_appends new l :
  (forall v, v ∈ l -> name v <> name new) ->
  (forall v i, v ∈ l -> i ∈ alias new -> i ∉ alias v) ->
  register new l = (l ++ [new], None).
Proof.
  intros Hname Hfree.
  assert (Hex : existsb (same_name new) l = false).
  { destruct (existsb (same_name new) l) eqn:Hex; [|reflexivity].
    apply existsb_exists in Hex as (v & Hin%list_elem_of_In & Hv%String.eqb_eq).
    by destruct (Hname v Hin). }
  destruct (register_cases new l)
    as [[_ ->]|(post & value & i & post' & -> & _ & Hclash & _)].
  - by rewrite Hex, (map_overwrite_fresh _ _ Hex).
  - exfalso. apply alias_clash_Some in Hclash as [Hi Hi'].
    apply (Hfree value i); [|assumption..].
    apply elem_of_app. right. left.
Qed.

(** X5. When the registry followed by the entries of a sequence of
    registrations is well formed (all names pairwise distinct, no alias
    shared), the registrations build exactly that list: each one appends
    its entry and none raises, so the size grows by the number of
    registrations. *)
Theorem commands_builds (regs : list (option string * list string * Func))
    (self : CLI) :
  let entries := map (fun '(nm, al, f) => decorated nm None al f) regs in
  well_formed (cmd self ++ entries) ->
  cmd (commands self regs) = cmd self ++ entries
  /\ length (cmd (commands self regs)) = (length (cmd self) + length regs)%nat.
Proof.
  cbv zeta. revert self.
  induction regs as [|[[nm al] f] regs IH]; intros self Hwf.
  - cbn [map commands]. rewrite app_nil_r, Nat.add_0_r. by split.
  - cbn [map commands]. cbn [map] in Hwf.
    set (new := decorated nm None al f) in *.
    set (entries := map _ regs) in *.
    destruct Hwf as [Hnames Hapart].
    assert (Hreg : register new (cmd self) = (cmd self ++ [new], None)).
    { apply register_appends.
      - intros v Hv Heq. rewrite map_app in Hnames. cbn [map] in Hnames.
        apply NoDup_app in Hnames as (_ & Hno & _).
        apply (Hno (name v)); [by apply list_elem_of_In, in_map, list_elem_of_In|].
        rewrite Heq. left.
      - intros v i Hv Hi Hi'.
        apply list_elem_of_lookup_1 in Hv as [k Hk].
        assert (k = length (cmd self)); [|apply lookup_lt_Some in Hk; lia].
        apply (Hapart k (length (cmd self)) v new i); try assumption.
        + by apply lookup_app_l_Some.
        + by apply list_lookup_middle. }
    rewrite command_register. fold new. rewrite Hreg. cbn [fst].
    destruct (IH (set_cmd self (cmd self ++ [new]))) as [Hcmd Hlen].
    { cbn [cmd set_cmd]. rewrite <- app_assoc. by split. }
    cbn [cmd set_cmd] in Hcmd, Hlen.
    split.
    + by rewrite Hcmd, <- app_assoc.
    + rewrite Hlen, length_app. cbn [length]. lia.
Qed.

(** X6. In every shell the constructor, the decorator and the passes of
    the loop can produce, the names of the commands are pairwise distinct
    and normalized; so the line made of the name of a registered command
    has this name as its first token, and selects the command. *)
Theorem reachable_names (self : CLI) :
  reachable self ->
  NoDup (map name (cmd self))
  /\ Forall normalized (map name (cmd self))
  /\ (forall i, i ∈ cmd self ->
        hd "" (PyStr.split " " (PyStr.lower (name i))) = name i
        /\ selects i (hd "" (PyStr.split " " (PyStr.lower (name i)))) = true).
Proof.
  intros Hreach.
  assert (Hinv : NoDup (map name (cmd self)) /\ Forall normalized (map name (cmd self))).
  { induction Hreach as [p ne lg an hc sys Hinit|self nm dc al func _ [IHd IHn]
                        |self error r _ [IHd IHn]].
    - destruct hc, sys; try discriminate Hinit; cbn; split;
        repeat first [apply NoDup_nil_2 | apply Forall_nil_2
                     | apply NoDup_cons_2 | apply Forall_cons_2
                     | by split
                     | rewrite ?elem_of_cons, elem_of_nil; intros Hin;
                       repeat (destruct Hin as [Hin|Hin]; try discriminate Hin);
                       assumption].
    - rewrite command_register. cbn [fst cmd set_cmd].
      rewrite register_names.
      destruct (existsb _ (cmd self)) eqn:Hex; [by rewrite app_nil_r|].
      destruct (snd (register _ _)); [by rewrite app_nil_r|].
      split.
      + apply NoDup_app. split; [assumption|]. split; [|apply NoDup_singleton].
        intros x Hx [->|Hnil]%elem_of_cons; [|inversion Hnil].
        apply existsb_same_name in Hx. congruence.
      + apply Forall_app. split; [assumption|].
        apply Forall_singleton. split;
          [apply normalize_no_upper | apply normalize_no_space].
    - rewrite iteration_sorts. cbn [cmd set_cmd].
      assert (Hperm : Permutation (map name (sorted_by_name (cmd self)))
                                  (map name (cmd self)))
        by apply Permutation_map, sorted_by_name_perm.
      by rewrite Hperm. }
  destruct Hinv as [Hd Hn]. split; [assumption|]. split; [assumption|].
  intros i Hi.
  assert (Hnorm : normalized (name i)).
  { rewrite Forall_forall in Hn. apply Hn.
    by apply list_elem_of_In, in_map, list_elem_of_In. }
  destruct Hnorm as [Hup Hsp].
  assert (Htok : hd "" (PyStr.split " " (PyStr.lower (name i))) = name i).
  { rewrite (PyStrFacts.lower_fixed _ Hup). unfold PyStr.split.
    by rewrite (PyStrFacts.split_go_no_space _ "" Hsp). }
  split; [assumption|]. rewrite Htok. unfold selects.
  by rewrite String.eqb_refl.
Qed.

End RegistryInvariants.

(** ** More on the dispatch loop *)

Section DispatchMore.
Context `{Interp}.
Implicit Types (self : CLI) (i j : Command) (l : list Command)
  (a : list PyVal) (error : option bool).

Local Abbreviation name_le := (fun i j => String.leb (name i) (name j) = true).
Local Abbreviation kinds := ["int"; "float"; "complex"; "bool"; "bytes"; "bytearray"].

Lemma handle_sends_no_call o i a : Called i a ∉ fst (handle o).
Proof.
  intros Hin. destruct o as [|[]|]; simpl in Hin;
    repeat match goal with
    | Hin : _ ∈ [] |- _ => inversion Hin
    | Hin : _ ∈ _ :: _ |- _ => apply elem_of_cons in Hin as [Hin|Hin]; [discriminate|]
    end.
Qed.

(** A call in the events of a pass is the call of the first selected entry
    on the arguments the coercion gave. *)
Lemma iteration_called self error line i a :
  Called i a ∈ step_events (iteration self error (Line line)) ->
  find (fun j => selects j (hd "" (PyStr.split " " (PyStr.lower line))))
       (sorted_by_name (cmd self)) = Some i
  /\ exists error',
       for_args i O (take (length (args i)) (tl (PyStr.split " " (PyStr.lower line))))
                [] error = (error', inl a).
Proof.
  rewrite iteration_line. cbv zeta. rewrite for_commands_find.
  cbn [cmd set_cmd].
  destruct (find _ _) as [j|] eqn:Hfind.
  - destruct (for_args j 0 _ [] error) as [error' [a'|e]] eqn:Hargs;
      cbn [fst snd step_events].
    + intros [[= -> ->]|Hin]%elem_of_cons; [eauto|].
      exfalso. apply elem_of_app in Hin as [Hin|Hin].
      * by apply invoke_sends_no_call in Hin.
      * by apply handle_sends_no_call in Hin.
    + intros Hin. exfalso. by apply handle_sends_no_call in Hin.
  - cbn [fst snd step_events]. intros [Hin|Hin]%elem_of_cons; [discriminate|].
    inversion Hin.
Qed.

Lemma find_split {A} (f : A -> bool) (l : list A) (x : A) :
  find f l = Some x ->
  exists pre post, l = pre ++ x :: post /\ f x = true /\ Forall (fun y => f y = false) pre.
Proof.
  induction l as [|y l IH]; simpl; [discriminate|].
  destruct (f y) eqn:Hy.
  - intros [= ->]. exists [], l. by repeat split.
  - intros (pre & post & -> & Hx & Hpre)%IH.
    exists (y :: pre), post. repeat split; [assumption|]. by constructor.
Qed.

(** X7. A pass calls at most one handler, and the entry it calls is the
    first, in the order of the names, among the entries the first token
    selects by name or by alias: every entry before it in the sorted
    registry is selected neither way. *)
Theorem called_is_first_selected (self : CLI) (error : option bool)
    (line : string) (i : Command) (a : list PyVal) :
  let s := iteration self error (Line line) in
  let first := hd "" (PyStr.split " " (PyStr.lower line)) in
  Called i a ∈ step_events s ->
  (exists pre post,
     sorted_by_name (cmd self) = pre ++ i :: post
     /\ selects i first = true
     /\ (forall j, j ∈ pre -> name j <> first /\ first ∉ alias j))
  /\ (forall i' a', Called i' a' ∈ step_events s -> i' = i /\ a' = a).
Proof.
  intros s first Hcalled. subst s.
  destruct (iteration_called _ _ _ _ _ Hcalled) as [Hfind [error' Hargs]].
  split.
  - destruct (find_split _ _ _ Hfind) as (pre & post & Hl & Hi & Hpre).
    exists pre, post. repeat split; try assumption.
    + rewrite Forall_forall in Hpre. by apply selects_false, Hpre.
    + rewrite Forall_forall in Hpre. by apply selects_false, Hpre.
  - intros i' a' Hcalled'.
    destruct (iteration_called _ _ _ _ _ Hcalled') as [Hfind' [error'' Hargs']].
    rewrite Hfind in Hfind'. injection Hfind' as <-.
    rewrite Hargs in Hargs'. by injection Hargs' as _ <-.
Qed.

(** What the loop over the alternatives can do. *)
Lemma for_types_cases alternatives ty arg a error :
  for_types alternatives ty arg a error = (a, error)
  \/ exists v, convert ty arg = Some v
       /\ for_types alternatives ty arg a error = (a ++ [v], Some false).
Proof.
  induction alternatives as [|t alternatives IH]; simpl; [by left|].
  destruct (convert ty arg) as [v|]; [right; by exists v | exact IH].
Qed.

(** The arguments the coercion gives: one value at most for each token, in
    the order of the tokens, each the conversion of a token. *)
Lemma for_args_appends i : forall tokens nmb a error error' a',
  for_args i nmb tokens a error = (error', inl a') ->
  exists vs, a' = a ++ vs /\ (length vs <= length tokens)%nat
    /\ Forall (fun v => exists ty arg, arg ∈ tokens /\ convert ty arg = Some v) vs.
Proof.
  induction tokens as [|arg tokens IH]; intros nmb a error error' a'; simpl.
  - intros [= _ <-]. exists []. rewrite app_nil_r.
    split; [reflexivity|]. split; [simpl; lia | constructor].
  - destruct (types i !! nmb) as [ty|]; [|discriminate].
    destruct (for_types_cases (PyStr.split " | " ty) ty arg a error)
      as [->|(v & Hv & ->)].
    + destruct error as [[]|]; try discriminate.
      intros (vs & -> & Hlen & Hall)%IH. exists vs.
      split; [reflexivity|]. split; [lia|]. eapply Forall_impl; [exact Hall|].
      intros w (ty' & arg' & Hin & Hw). exists ty', arg'. split; [by right | assumption].
    + intros (vs & -> & Hlen & Hall)%IH. exists (v :: vs).
      rewrite <- app_assoc. split; [reflexivity|]. split; [simpl; lia|].
      constructor; [exists ty, arg; split; [left | assumption]|].
      eapply Forall_impl; [exact Hall|].
      intros w (ty' & arg' & Hin & Hw). exists ty', arg'. split; [by right | assumption].
Qed.

(** A conversion gives a string only by passing the token on. *)
Lemma convert_str ty arg s : convert ty arg = Some (PyStr s) -> s = arg.
Proof.
  unfold convert.
  repeat match goal with
  | |- context [String.eqb ty ?k] => destruct (String.eqb ty k)
  end;
  try (destruct (PyBuiltins.int arg); discriminate);
  try (destruct (float_of_str arg); discriminate);
  try (destruct (complex_of_str arg); discriminate);
  try discriminate.
  by intros [= ->].
Qed.

(** X8. The handler receives at most one argument for each declared
    parameter and at most one for each token that follows the command: the
    tokens beyond the declared parameters are ignored. *)
Theorem arguments_are_bounded (self : CLI) (error : option bool) (line : string)
    (i : Command) (a : list PyVal) :
  Called i a ∈ step_events (iteration self error (Line line)) ->
  (length a <= length (args i))%nat
  /\ (length a <= Nat.pred (length (PyStr.split " " (PyStr.lower line))))%nat.
Proof.
  intros Hcalled.
  destruct (iteration_called _ _ _ _ _ Hcalled) as [_ [error' Hargs]].
  apply for_args_appends in Hargs as (vs & -> & Hlen & _).
  rewrite length_take in Hlen. cbn [app].
  destruct (PyStr.split " " (PyStr.lower line)) as [|t l]; simpl in *; lia.
Qed.

(** X9. Every string a handler receives is a token of the lowered line
    that follows the command; so no argument that is a string keeps an
    upper-case letter of the line entered. *)
Theorem string_arguments_are_lowered (self : CLI) (error : option bool)
    (line : string) (i : Command) (a : list PyVal) (s : string) :
  Called i a ∈ step_events (iteration self error (Line line)) ->
  PyStr s ∈ a ->
  s ∈ tl (PyStr.split " " (PyStr.lower line)) /\ PyStr.has_upper s = false.
Proof.
  intros Hcalled Hs.
  destruct (iteration_called _ _ _ _ _ Hcalled) as [_ [error' Hargs]].
  apply for_args_appends in Hargs as (vs & -> & _ & Hall). cbn [app] in Hs.
  rewrite Forall_forall in Hall.
  destruct (Hall _ Hs) as (ty & arg & Hin & Harg%convert_str). subst arg.
  assert (Htl : s ∈ tl (PyStr.split " " (PyStr.lower line))).
  { by apply (subseteq_take (length (args i))). }
  split; [assumption|].
  pose proof (PyStrFacts.split_go_no_upper " " (PyStr.lower line) O "" eq_refl
                (PyStrFacts.has_upper_lower line)) as Hno.
  fold (PyStr.split " " (PyStr.lower line)) in Hno.
  rewrite Forall_forall in Hno. apply Hno.
  destruct (PyStr.split " " (PyStr.lower line)) as [|t l]; [inversion Htl|].
  by right.
Qed.

Lemma find_unique {A} (f : A -> bool) (l : list A) (x : A) :
  x ∈ l -> f x = true -> (forall y, y ∈ l -> f y = true -> y = x) ->
  find f l = Some x.
Proof.
  intros Hin Hx Honly. induction l as [|y l IH]; [inversion Hin|].
  simpl. destruct (f y) eqn:Hy.
  - f_equal. apply Honly; [left | assumption].
  - apply IH.
    + apply elem_of_cons in Hin as [->|Hin]; [congruence | assumption].
    + intros z Hz. apply Honly. by right.
Qed.

(** The events of a pass on a line whose first token selects an entry. *)
Lemma iteration_found self error line i :
  find (fun j => selects j (hd "" (PyStr.split " " (PyStr.lower line))))
       (sorted_by_name (cmd self)) = Some i ->
  step_events (iteration self error (Line line))
  = match for_args i O
            (take (length (args i)) (tl (PyStr.split " " (PyStr.lower line))))
            [] error with
    | (_, inl a) =>
        Called i a
        :: fst (invoke (set_cmd self (sorted_by_name (cmd self))) (function i) a)
        ++ fst (handle (snd (invoke (set_cmd self (sorted_by_name (cmd self)))
                                    (function i) a)))
    | (_, inr e) => fst (handle (Raises e))
    end.
Proof.
  intros Hfind. rewrite iteration_line. cbv zeta. rewrite for_commands_find.
  cbn [cmd set_cmd]. rewrite Hfind.
  by destruct (for_args i 0 _ [] error) as [error' [a|e]].
Qed.

(** X10. When the first token selects one registered command and no
    other, by its name or by one of its aliases, the pass coerces for this
    command and calls it, wherever the sort puts it; when the coercion
    raises, the pass prints the error and calls nothing. *)
Theorem selected_alone_is_called (self : CLI) (error : option bool)
    (line : string) (i : Command) :
  let first := hd "" (PyStr.split " " (PyStr.lower line)) in
  let rest := tl (PyStr.split " " (PyStr.lower line)) in
  let self' := set_cmd self (sorted_by_name (cmd self)) in
  i ∈ cmd self -> selects i first = true ->
  (forall j, j ∈ cmd self -> selects j first = true -> j = i) ->
  step_events (iteration self error (Line line))
  = match for_args i O (take (length (args i)) rest) [] error with
    | (_, inl a) =>
        Called i a :: fst (invoke self' (function i) a)
        ++ fst (handle (snd (invoke self' (function i) a)))
    | (_, inr e) => fst (handle (Raises e))
    end.
Proof.
  intros first rest self' Hin Hsel Honly. subst first rest self'.
  apply iteration_found. apply find_unique; [|assumption|].
  - by apply elem_of_sorted_by_name.
  - intros j Hj. apply Honly. by apply (proj1 (elem_of_sorted_by_name _ _)).
Qed.

(** The coercion over positions whose declared types are none of the six
    kinds passes every token on. *)
Lemma for_args_passes i : forall tokens nmb a error,
  (forall k, (k < length tokens)%nat ->
     exists ty, types i !! (nmb + k)%nat = Some ty /\ ty ∉ kinds) ->
  for_args i nmb tokens a error
  = (match tokens with [] => error | _ => Some false end,
     inl (a ++ map PyStr tokens)).
Proof.
  induction tokens as [|arg tokens IH]; intros nmb a error Hty.
  - simpl. by rewrite app_nil_r.
  - cbn [for_args].
    destruct (Hty O) as (ty & Hnmb & Hkind); [simpl; lia|].
    rewrite Nat.add_0_r in Hnmb. rewrite Hnmb.
    rewrite (for_types_converts _ ty arg (PyStr arg) a error
               (split_nonempty _ _) (convert_other _ _ Hkind)).
    rewrite IH.
    + cbn [map]. rewrite <- app_assoc. by destruct tokens.
    + intros k Hk. destruct (Hty (S k)) as (ty' & Hk' & Hkind'); [simpl; lia|].
      exists ty'. split; [|assumption]. by rewrite Nat.add_succ_comm.
Qed.

(** X11. A command whose declared types are none of the six kinds (its
    parameters are not annotated, or annotated [str]) never fails the
    coercion: when the first token selects it, the handler is called on the
    tokens that follow the command, lowered, as strings, one for each
    declared parameter at most. *)
Theorem untyped_tokens_pass_through (self : CLI) (error : option bool)
    (line : string) (i : Command) :
  let first := hd "" (PyStr.split " " (PyStr.lower line)) in
  let rest := tl (PyStr.split " " (PyStr.lower line)) in
  find (fun j => selects j first) (sorted_by_name (cmd self)) = Some i ->
  (length (args i) <= length (types i))%nat ->
  Forall (fun ty => ty ∉ kinds) (types i) ->
  exists evs,
    step_events (iteration self error (Line line))
    = Called i (map PyStr (take (length (args i)) rest)) :: evs.
Proof.
  intros first rest Hfind Hlen Hkinds. subst first rest.
  rewrite (iteration_found _ _ _ _ Hfind).
  rewrite for_args_passes.
  - cbn [app]. eauto.
  - intros k Hk. rewrite length_take in Hk. cbn [Nat.add].
    destruct (types i !! k) as [ty|] eqn:Hty.
    + exists ty. split; [reflexivity|]. rewrite Forall_forall in Hkinds.
      apply Hkinds. by eapply list_elem_of_lookup_2.
    + apply lookup_ge_None in Hty. lia.
Qed.

(** *** The sort, again *)

Lemma insert_by_name_least i l :
  Forall (name_le i) l -> insert_by_name i l = i :: l.
Proof.
  intros Hall. destruct l as [|j l]; [reflexivity|].
  inversion_clear Hall as [|? ? Hj _]. simpl. by rewrite Hj.
Qed.

Lemma sorted_by_name_fixed l :
  StronglySorted name_le l -> sorted_by_name l = l.
Proof.
  induction 1 as [|i l _ IH Hi]; [reflexivity|].
  simpl. fold (sorted_by_name l). rewrite IH. by apply insert_by_name_least.
Qed.

(** X12. Sorting leaves a registry whose names are in order as it is, so
    sorting twice is sorting once: the passes after the first one find the
    registry sorted and do not move an entry.  With handlers that do not
    register commands, the registry after any reads is the registry the
    first pass sorted, and the other settings of the shell are those it
    started with. *)
Theorem run_sorts_once (self : CLI) (error : option bool) (reads : list Read) :
  sorted_by_name (sorted_by_name (cmd self)) = sorted_by_name (cmd self)
  /\ step_cli (run_from self error reads)
     = match reads with
       | [] => self
       | _ => set_cmd self (sorted_by_name (cmd self))
       end.
Proof.
  assert (Hidem : forall l, sorted_by_name (sorted_by_name l) = sorted_by_name l)
    by (intros l; apply sorted_by_name_fixed, sorted_by_name_sorted).
  split; [apply Hidem|].
  revert self error. induction reads as [|r reads IH]; intros self error;
    [reflexivity|].
  cbn [run_from].
  destruct (step_control (iteration self error r)) eqn:Hc;
    [|apply iteration_sorts..].
  cbn [step_cli]. rewrite IH, iteration_sorts.
  destruct reads; [reflexivity|].
  unfold set_cmd. cbn [cmd prompt_text not_exist logs animation clear_cmd].
  by rewrite Hidem.
Qed.

(** *** The commands of the constructor *)

(** X13. On a shell as the constructor leaves it, whatever its settings
    and its system, a line whose first token is [leave] or [exit], in any
    letter case and whatever follows it, calls the closure of [leave]
    without arguments and kills the process: the reads that come after it
    are not processed.  A line whose first token is [clear-host], or the
    alias of the system, gives the command of the system to [os.system]
    and echoes nothing. *)
Theorem constructor_commands_run (p ne : string) (lg an hc : bool)
    (sys : Platform) (error : option bool) (line : string) (reads : list Read) :
  let self := fst (init p ne lg an hc sys) in
  let first := hd "" (PyStr.split " " (PyStr.lower line)) in
  let s := run_from self error (Line line :: reads) in
  snd (init p ne lg an hc sys) = None ->
  (first = "leave" \/ first = "exit" ->
     step_control s = Killed
     /\ step_events s
        = [Called (decorated None (Some "Close the terminal.") ["exit"] leave_func) []])
  /\ (first = "clear-host" \/ first = clear_cmd self ->
        step_events (iteration self error (Line line))
        = [Called (decorated (Some "clear-host")
                     (Some "Reset the display of the terminal.") [clear_cmd self]
                     clear_host_func) [];
           SystemCmd (clear_cmd self)]
        /\ clear_cmd self = match sys with Windows => "cls" | _ => "reset" end).
Proof.
  intros self first s Hinit. subst self first s.
  split.
  - intros Hfirst. cbn [run_from].
    assert (Hit : iteration (fst (init p ne lg an hc sys)) error (Line line)
                  = mkStep (set_cmd (fst (init p ne lg an hc sys))
                              (sorted_by_name (cmd (fst (init p ne lg an hc sys)))))
                      error
                      [Called (decorated None (Some "Close the terminal.") ["exit"]
                                 leave_func) []]
                      Killed).
    { rewrite iteration_line. cbv zeta. rewrite for_commands_find.
      destruct hc, sys; try discriminate Hinit;
        destruct Hfirst as [-> | ->]; reflexivity. }
    rewrite Hit. by split.
  - intros Hfirst. rewrite iteration_line. cbv zeta. rewrite for_commands_find.
    destruct hc, sys; try discriminate Hinit;
      (split; [|reflexivity]);
      destruct Hfirst as [Hfirst | Hfirst]; rewrite Hfirst; reflexivity.
Qed.

End DispatchMore.

(** ** The string methods, again *)

Module PyStrMore.
Import PyStr PyStrFacts.

Lemma append_assoc s t u : (s +:+ t) +:+ u = s +:+ t +:+ u.
Proof.
  induction s as [|c s IH]; [reflexivity|]. by rewrite !append_cons, IH.
Qed.

Lemma length_append s t : String.length (s +:+ t) = (String.length s + String.length t)%nat.
Proof.
  induction s as [|c s IH]; [reflexivity|].
  rewrite append_cons. simpl. by rewrite IH.
Qed.

Lemma prefix_char c d s : String.prefix (String c "") (String d s) = Ascii.eqb d c.
Proof.
  change (String.prefix (String c "") (String d s))
    with (if ascii_dec c d then String.prefix "" s else false).
  destruct (ascii_dec c d) as [<-|Hne].
  - by rewrite prefix_empty, Ascii.eqb_refl.
  - symmetry. apply Ascii.eqb_neq. congruence.
Qed.

Lemma split_go_nonempty sep s skip cur : split_go sep skip cur s <> [].
Proof.
  revert skip cur. induction s as [|c s IH]; intros skip cur; cbn [split_go];
    [discriminate|].
  destruct skip; [|apply IH].
  destruct (String.prefix sep (String c s)); [discriminate | apply IH].
Qed.

Lemma join_cons sep x l : l <> [] -> join sep (x :: l) = x +:+ sep +:+ join sep l.
Proof. by destruct l. Qed.

(** Joining the pieces of a split on one character gives the string back. *)
Lemma join_split_go c s : forall cur,
  join (String c "") (split_go (String c "") O cur s) = cur +:+ s.
Proof.
  induction s as [|d s IH]; intros cur.
  - simpl. by rewrite append_empty.
  - cbn [split_go]. rewrite prefix_char.
    destruct (Ascii.eqb d c) eqn:Hd.
    + apply Ascii.eqb_eq in Hd as ->. cbn [String.length Nat.pred].
      rewrite join_cons by apply split_go_nonempty.
      by rewrite IH.
    + by rewrite IH, append_char.
Qed.

(** The pieces of a split on one character hold the other characters. *)
Lemma split_go_lengths c s : forall cur,
  list_sum (map String.length (split_go (String c "") O cur s))
  = (String.length cur
     + length (List.filter (fun d => negb (Ascii.eqb d c)) (list_ascii_of_string s)))%nat.
Proof.
  induction s as [|d s IH]; intros cur.
  - simpl. lia.
  - cbn [split_go list_ascii_of_string List.filter]. rewrite prefix_char.
    destruct (Ascii.eqb d c) eqn:Hd; cbn [negb].
    + cbn [String.length Nat.pred map].
      change (list_sum (String.length cur :: ?l)) with (String.length cur + list_sum l)%nat.
      rewrite IH. simpl. lia.
    + rewrite IH, length_append. simpl. lia.
Qed.

Lemma split_go_count c s : forall cur,
  length (split_go (String c "") O cur s)
  = S (length (List.filter (fun d => Ascii.eqb d c) (list_ascii_of_string s))).
Proof.
  induction s as [|d s IH]; intros cur; [reflexivity|].
  cbn [split_go list_ascii_of_string List.filter]. rewrite prefix_char.
  destruct (Ascii.eqb d c); cbn [String.length Nat.pred length]; by rewrite IH.
Qed.

(** X14. Splitting a string on one character (the space for the line
    entered, the line feed for the text echoed) and joining the pieces with
    this character gives the string back; the pieces are one more than the
    occurrences of the character, and none of them holds it. *)
Theorem join_split (c : ascii) (s : string) :
  join (String c "") (split (String c "") s) = s
  /\ length (split (String c "") s)
     = S (length (List.filter (fun d => Ascii.eqb d c) (list_ascii_of_string s)))
  /\ Forall (fun piece => has_char c piece = false) (split (String c "") s).
Proof.
  unfold split. split; [apply (join_split_go c s "")|].
  split; [apply split_go_count|].
  assert (Hgo : forall cur, has_char c cur = false ->
            Forall (fun piece => has_char c piece = false)
                   (split_go (String c "") O cur s)).
  { induction s as [|d s IH]; intros cur Hcur; cbn [split_go].
    - by constructor.
    - rewrite prefix_char. destruct (Ascii.eqb d c) eqn:Hd.
      + constructor; [assumption | by apply IH].
      + apply IH. clear IH. induction cur as [|e cur IHc].
        * simpl. by rewrite Hd.
        * rewrite append_cons. simpl in *.
          apply orb_false_elim in Hcur as [He Hcur]. by rewrite He, IHc. }
  by apply Hgo.
Qed.

End PyStrMore.

(** ** The output primitives *)

Module Output.
Import PyStr PyStrFacts PyStrMore.

Lemma printed_app x y : printed (x ++ y) = printed x +:+ printed y.
Proof.
  induction x as [|[text terminator| |shown|values] x IH]; cbn [app printed];
    try exact IH; [reflexivity|].
  by rewrite IH, !append_assoc.
Qed.

Lemma sleeps_app x y : sleeps (x ++ y) = (sleeps x + sleeps y)%nat.
Proof.
  induction x as [|[text terminator| |shown|values] x IH]; cbn [app sleeps];
    try exact IH; [reflexivity|]. by rewrite IH.
Qed.

Lemma sleeps_animate line : forall text, sleeps (animate text line) = String.length line.
Proof.
  induction line as [|i line IH]; intros text; [reflexivity|].
  cbn [animate sleeps String.length]. by rewrite IH.
Qed.

Lemma flat_map_seq_shift {A} (f : nat -> list A) n : forall start,
  flat_map f (seq (S start) n) = flat_map (fun k => f (S k)) (seq start n).
Proof.
  induction n as [|n IH]; intros start; [reflexivity|].
  cbn [seq flat_map]. by rewrite IH.
Qed.

(** The frames of a line are its prefixes, one character longer each time,
    each followed by a sleep. *)
Lemma animate_frames line : forall text,
  animate text line
  = flat_map
      (fun k => [TermPrint (text +:+ substring 0 (S k) line) carriage_return; Sleep])
      (seq 0 (String.length line)).
Proof.
  induction line as [|i line IH]; intros text; [reflexivity|].
  cbn [animate String.length seq flat_map app].
  rewrite flat_map_seq_shift, IH.
  f_equal; [by destruct line|]. f_equal.
  apply flat_map_ext. intros k. cbn [substring]. by rewrite append_char.
Qed.

Lemma printed_lines terminator lines :
  printed (flat_map (fun line => [TermPrint line terminator]) lines)
  = String.concat "" (map (fun line => line +:+ terminator) lines).
Proof.
  induction lines as [|line lines IH]; [reflexivity|].
  cbn [flat_map map app printed]. rewrite IH.
  destruct lines as [|line' lines].
  - simpl. by rewrite !append_empty.
  - set (rest := map _ (line' :: lines)).
    transitivity ((line +:+ terminator) +:+ String.concat "" rest);
      [symmetry; apply append_assoc | reflexivity].
Qed.

Lemma concat_lines lines :
  lines <> [] ->
  String.concat "" (map (fun line => line +:+ newline) lines)
  = join newline lines +:+ newline.
Proof.
  induction lines as [|line lines IH]; [contradiction|]. intros _.
  destruct lines as [|line' lines]; [reflexivity|].
  rewrite join_cons by discriminate.
  set (rest := line' :: lines) in *.
  transitivity ((line +:+ newline)
                +:+ String.concat "" (map (fun line => line +:+ newline) rest));
    [reflexivity|].
  rewrite IH by discriminate. by rewrite !append_assoc.
Qed.

(** X15. Without animation and with the line feed as terminator, [echo]
    writes to the terminal exactly the values joined by the separator,
    followed by a line feed, as [print] does, and sleeps never; it calls
    [write_logs] once, on the joined text, when [logs] is set, and never
    otherwise. *)
Theorem echo_prints_the_text (values : list string) (sep : string) (logs : bool) :
  printed (echo values sep newline false logs) = join sep values +:+ newline
  /\ sleeps (echo values sep newline false logs) = O
  /\ List.filter (fun act => match act with WriteLogs _ => true | _ => false end)
       (echo values sep newline false logs)
     = if logs then [WriteLogs [join sep values]] else [].
Proof.
  unfold echo. cbv zeta.
  set (output := join sep values).
  rewrite (flat_map_ext _ (fun line => [TermPrint line newline]))
    by reflexivity.
  assert (Hlines : forall lines,
            sleeps (flat_map (fun line => [TermPrint line newline]) lines) = O
            /\ List.filter (fun act => match act with WriteLogs _ => true | _ => false end)
                 (flat_map (fun line => [TermPrint line newline]) lines) = []).
  { induction lines as [|line lines [IHs IHf]]; [by split|].
    cbn [flat_map app sleeps List.filter]. by split. }
  split; [|split].
  - rewrite printed_app, printed_lines, concat_lines by apply split_go_nonempty.
    pose proof (join_split_go "010" output "") as Hjoin.
    change (String "010" "") with newline in Hjoin.
    unfold split. rewrite Hjoin.
    change ("" +:+ output) with output.
    destruct logs; simpl; by rewrite append_empty.
  - rewrite sleeps_app, (proj1 (Hlines _)). by destruct logs.
  - rewrite List.filter_app, (proj2 (Hlines _)). by destruct logs.
Qed.

(** X16. With animation, [echo] reveals each line of the text by one
    print for each of its characters, showing the prefixes of the line one
    character longer each time, each ended by a carriage return and
    followed by one sleep, and then prints the line whole; the sleeps are
    as many as the characters of the text that are no line feed.  [prompt]
    reveals the lines of the prompt the same way, then gives the prompt to
    [input] and returns what [input] returns. *)
Theorem animation_shows_prefixes (values : list string) (sep terminator : string)
    (logs : bool) (shown : string) (r : Read) :
  let output := join sep values in
  let frames line :=
    flat_map (fun k => [TermPrint (substring 0 (S k) line) carriage_return; Sleep])
             (seq 0 (String.length line)) in
  echo values sep terminator true logs
  = flat_map (fun line => frames line ++ [TermPrint line terminator])
             (split newline output)
    ++ (if logs then [WriteLogs [output]] else [])
  /\ sleeps (echo values sep terminator true logs)
     = length (List.filter (fun d => negb (Ascii.eqb d "010"))
                           (list_ascii_of_string output))
  /\ fst (prompt shown true logs r)
     = flat_map frames (split newline shown) ++ [Input shown]
       ++ match r with
          | Line returned => if logs then [WriteLogs [returned]] else []
          | ReadRaises _ => []
          end
  /\ snd (prompt shown true logs r)
     = match r with Line returned => inl returned | ReadRaises e => inr e end.
Proof.
  intros output frames. subst frames.
  split; [|split; [|split]].
  - unfold echo. cbv zeta. fold output. f_equal.
    apply flat_map_ext. intros line. by rewrite animate_frames.
  - unfold echo. cbv zeta. fold output. rewrite sleeps_app.
    assert (Hlog : sleeps (if logs then [WriteLogs [output]] else []) = O)
      by (by destruct logs).
    rewrite Hlog, Nat.add_0_r.
    pose proof (split_go_lengths "010" output "") as Hlen.
    change (String "010" "") with newline in Hlen.
    cbn [String.length Nat.add] in Hlen. rewrite <- Hlen.
    unfold split. generalize (split_go newline 0 "" output) as lines.
    induction lines as [|line lines IH]; [reflexivity|].
    cbn [flat_map map]. rewrite !sleeps_app, sleeps_animate, IH.
    cbn [sleeps]. change (list_sum (?x :: ?l)) with (x + list_sum l)%nat. lia.
  - destruct r as [returned|e]; unfold prompt; cbn [fst].
    + f_equal. apply flat_map_ext. intros line. by rewrite animate_frames.
    + rewrite app_nil_r. f_equal.
      apply flat_map_ext. intros line. by rewrite animate_frames.
  - by destruct r.
Qed.

(** *** [write_logs] *)

Lemma month_name (m : Z) :
  1 <= m <= 12 -> exists mon, index months (m - 1) = Some mon.
Proof.
  intros Hm.
  assert (Hcases : m = 1 \/ m = 2 \/ m = 3 \/ m = 4 \/ m = 5 \/ m = 6 \/ m = 7
                   \/ m = 8 \/ m = 9 \/ m = 10 \/ m = 11 \/ m = 12) by lia.
  repeat (destruct Hcases as [->|Hcases]; [eexists; reflexivity|]).
  subst m. eexists. reflexivity.
Qed.

(** One call under the defaults, with a month of the calendar. *)
Lemma write_logs_entry (call : list string * Clock) (d : Disk) :
  1 <= month (snd call) <= 12 ->
  write_logs (fst call) " " newline (snd call) d
  = (mkDisk true
       (<[log_path (snd call)
          := default "" (files d !! log_path (snd call)) +:+ entry_of call]>
          (files d)),
     None).
Proof.
  intros Hm. destruct (month_name _ Hm) as [mon Hmon].
  unfold write_logs, entry_of. cbv zeta. by rewrite Hmon.
Qed.

Lemma concat_cons (x : string) (l : list string) :
  l <> [] -> String.concat "" (x :: l) = x +:+ String.concat "" l.
Proof. by destruct l. Qed.

(** X17. A sequence of calls of [write_logs] whose months are months of
    the calendar raises nothing and leaves the directory [latest] in place.
    The transcript is append-only: a file none of the calls names is as it
    was, missing if it was missing, and the file of a day holds what it
    held, followed by the entries of the calls of that day, in the order of
    the calls. *)
Theorem write_all_appends (calls : list (list string * Clock)) (d : Disk) :
  Forall (fun call => 1 <= month (snd call) <= 12) calls ->
  snd (write_all calls d) = None
  /\ latest (fst (write_all calls d))
     = match calls with [] => latest d | _ => true end
  /\ (forall path,
        files (fst (write_all calls d)) !! path
        = match List.filter (fun call => String.eqb (log_path (snd call)) path)
                            calls with
          | [] => files d !! path
          | written =>
              Some (default "" (files d !! path)
                    +:+ String.concat "" (map entry_of written))
          end).
Proof.
  intros Hmonths. revert d.
  induction Hmonths as [|call calls Hm _ IH]; intros d; [by repeat split|].
  cbn [write_all]. destruct call as [values now] eqn:Hcall.
  pose proof (write_logs_entry call d) as Hw. rewrite Hcall in Hw.
  cbn [fst snd] in Hw, Hm. rewrite (Hw Hm). clear Hw.
  set (d1 := mkDisk true _).
  destruct (IH d1) as (Hnone & Hlatest & Hfiles).
  split; [assumption|]. split; [by destruct calls|].
  intros path. rewrite Hfiles. cbn [List.filter snd].
  destruct (String.eqb_spec (log_path now) path) as [<-|Hne].
  - assert (Hd1 : files d1 !! log_path now
                  = Some (default "" (files d !! log_path now)
                          +:+ entry_of (values, now)))
      by apply lookup_insert_eq.
    rewrite Hd1. cbn [from_option id].
    destruct (List.filter _ calls) as [|call' written]; [reflexivity|].
    cbn [map]. rewrite (concat_cons (entry_of (values, now))) by discriminate.
    by rewrite append_assoc.
  - assert (Hd1 : files d1 !! path = files d !! path)
      by (by apply lookup_insert_ne).
    by rewrite Hd1.
Qed.

End Output.

(** ** More theorems at concrete shells *)

Section MoreWitnesses.
Local Existing Instance plain_interp.

(** A registry whose aliases, put end to end, do not repeat has no alias
    shared by two entries. *)
Lemma aliases_apart_NoDup (l : list Command) :
  NoDup (concat (map alias l)) -> aliases_apart l.
Proof.
  induction l as [|v l IH]; intros Hnodup k1 k2 v1 v2 i Hk1 Hk2 Hi1 Hi2.
  - by rewrite lookup_nil in Hk1.
  - cbn [map concat] in Hnodup. apply NoDup_app in Hnodup as (_ & Hdisj & Hrest).
    assert (Hin : forall k w, l !! k = Some w -> i ∈ alias w ->
                    i ∈ concat (map alias l)).
    { intros k w Hk Hw. apply list_elem_of_In, in_concat. exists (alias w).
      split; [|by apply list_elem_of_In].
      by apply in_map, list_elem_of_In, (list_elem_of_lookup_2 _ k). }
    destruct k1 as [|k1], k2 as [|k2]; simpl in Hk1, Hk2.
    + reflexivity.
    + injection Hk1 as <-. exfalso. by apply (Hdisj i Hi1), (Hin k2 v2).
    + injection Hk2 as <-. exfalso. by apply (Hdisj i Hi2), (Hin k1 v1).
    + f_equal. by apply (IH Hrest k1 k2 v1 v2 i).
Qed.

Lemma well_formed_check (l : list Command) :
  bool_decide (NoDup (map name l)) && bool_decide (NoDup (concat (map alias l))) = true ->
  well_formed l.
Proof.
  intros [Hn Ha]%andb_true_iff. split.
  - by apply bool_decide_eq_true in Hn.
  - apply aliases_apart_NoDup. by apply bool_decide_eq_true in Ha.
Qed.

Lemma command_keeps_well_formed_witness :
  well_formed (cmd (fst (command default_cli None None ["plus"] add_func))).
Proof.
  apply command_keeps_well_formed.
  - apply well_formed_check. reflexivity.
  - reflexivity.
Defined.

Lemma alias_stays_taken_until_redefined_witness :
  exists value j,
    snd (command
           (commands (fst (command default_cli None None ["f"] first_func))
              [(None, ["s"], second_func); (None, ["s"], add_func)])
           None (Some "again") ["f"] first_func)
    = Some (alias_error value j)
    /\ j ∈ ["f"] /\ j ∈ alias value.
Proof.
  apply (alias_stays_taken_until_redefined default_cli None None None (Some "again")
           ["f"] ["f"] first_func first_func "f"
           [(None, ["s"], second_func); (None, ["s"], add_func)]).
  - reflexivity.
  - left.
  - left.
  - intros nm1 al1 f1 Hreg.
    repeat (apply elem_of_cons in Hreg as [[= -> -> ->]|Hreg]; [discriminate|]).
    inversion Hreg.
Defined.

Lemma commands_builds_witness :
  cmd two_cli
  = cmd default_cli
    ++ [decorated None None ["f"] first_func; decorated None None ["s"] second_func]
  /\ length (cmd two_cli) = 5%nat.
Proof.
  apply (commands_builds [(None, ["f"], first_func); (None, ["s"], second_func)]
           default_cli).
  apply well_formed_check. reflexivity.
Defined.

Lemma reachable_names_witness :
  NoDup (map name (cmd typed_cli)) /\ Forall normalized (map name (cmd typed_cli)).
Proof.
  destruct (reachable_names typed_cli) as (Hd & Hn & _).
  - unfold typed_cli. cbn [commands]. do 4 apply reach_command.
    apply (reach_init "Python@CLI\>" not_exist_default true true true Linux).
    reflexivity.
  - by split.
Defined.

Lemma called_is_first_selected_witness :
  exists pre post,
    sorted_by_name (cmd typed_cli) = pre ++ entry "add" None add_func [] :: post
    /\ selects (entry "add" None add_func []) "add" = true
    /\ (forall j, j ∈ pre -> name j <> "add" /\ "add" ∉ alias j).
Proof.
  apply (called_is_first_selected typed_cli None "add 1"
           (entry "add" None add_func []) [PyInt 1]).
  left.
Defined.

Lemma arguments_are_bounded_witness :
  (length [PyInt 1] <= length (args (entry "add" None add_func [])))%nat
  /\ (length [PyInt 1] <= Nat.pred (length (PyStr.split " " (PyStr.lower "add 1 2 3"))))%nat.
Proof.
  apply (arguments_are_bounded typed_cli None "add 1 2 3").
  left.
Defined.

Lemma string_arguments_are_lowered_witness :
  "abc" ∈ tl (PyStr.split " " (PyStr.lower "scale ABC")) /\ PyStr.has_upper "abc" = false.
Proof.
  apply (string_arguments_are_lowered typed_cli None "scale ABC"
           (entry "scale" None scale_func []) [PyStr "abc"]).
  - left.
  - left.
Defined.

Lemma selected_alone_is_called_witness :
  step_events (iteration typed_cli None (Line "add 7"))
  = [Called (entry "add" None add_func []) [PyInt 7]].
Proof.
  apply (selected_alone_is_called typed_cli None "add 7" (entry "add" None add_func [])).
  - apply (list_elem_of_lookup_2 _ 4%nat). reflexivity.
  - reflexivity.
  - intros j Hj Hsel.
    repeat (apply elem_of_cons in Hj as [->|Hj];
            [first [reflexivity | discriminate Hsel]|]).
    inversion Hj.
Defined.

Lemma untyped_tokens_pass_through_witness :
  exists evs,
    step_events (iteration untyped_cli None (Line "S Hello World again"))
    = Called (entry "say" None say_func ["s"]) [PyStr "hello"; PyStr "world"] :: evs.
Proof.
  apply (untyped_tokens_pass_through untyped_cli None "S Hello World again"
           (entry "say" None say_func ["s"])).
  - reflexivity.
  - reflexivity.
  - repeat constructor; intros Hin;
      repeat (apply elem_of_cons in Hin as [Hin|Hin]; [discriminate Hin|]);
      inversion Hin.
Defined.

Lemma constructor_commands_run_witness :
  step_control (run_from default_cli None [Line "EXIT now"; Line "help"]) = Killed
  /\ step_events (run_from default_cli None [Line "EXIT now"; Line "help"])
     = [Called (decorated None (Some "Close the terminal.") ["exit"] leave_func) []].
Proof.
  destruct (constructor_commands_run "Python@CLI\>" not_exist_default true true true
              Linux None "EXIT now" [Line "help"] eq_refl) as [Hleave _].
  apply Hleave. by right.
Defined.

End MoreWitnesses.

Lemma write_all_appends_witness :
  snd (write_all [(["hello"], morning); (["bye"; "now"], evening)] (mkDisk false ∅)) = None
  /\ files (fst (write_all [(["hello"], morning); (["bye"; "now"], evening)]
                   (mkDisk false ∅)))
     !! "latest/2023-05-01.log"
     = Some ("[2023/May/1 9:5:3] hello" +:+ PyStr.newline
             +:+ "[2023/May/1 21:40:0] bye now" +:+ PyStr.newline).
Proof.
  destruct (Output.write_all_appends
              [(["hello"], morning); (["bye"; "now"], evening)] (mkDisk false ∅))
    as (Hnone & _ & Hfiles).
  - repeat constructor; simpl; lia.
  - split; [exact Hnone|]. exact (Hfiles "latest/2023-05-01.log").
Defined.

(** ** Aliases and the case of the line *)

Section AliasCase.
Context `{Interp}.


End AliasCase.

Section AliasCaseExamples.
Local Existing Instance plain_interp.



End AliasCaseExamples.
